(** * Uncle's Insider Radar: the screening pipeline of [app.py]

    A shallow embedding of the two stages of [src/app.py]:

    - stage 1 (lines 46-79): header clean-up, column detection
      ([get_col_name]), the three row filters, numeric coercion, grouping
      by [SYMBOL], conversion to crores and ranking;
    - stage 2 (lines 98-161): the scan of the top [num_stocks] rows
      against the quote service and the slider filters that split the
      scanned rows into golden and rejected stocks.

    Modelling conventions.

    - Text is [string] (a sequence of bytes); upper/lower case and white
      space are the ASCII ones, other bytes are left alone.
    - A CSV cell is [option string]: [None] is pandas' missing value. The
      three filtered columns are taken to be text columns (what [.str]
      requires), and the cleaned header names to be distinct, so that
      [df[name]] is one column.
    - Python floats are exact rationals ([Qc], canonical fractions), so
      sums, products and comparisons carry no rounding error; [round(x, 2)]
      is rounding to the nearest hundredth, ties to the even neighbour.
    - The three library services the script calls are variables of the
      development: the numeric reading of a CSV field ([pd.to_numeric]),
      the quote lookup ([yf.Ticker(...).info]) and the order computed by
      the default sort kind of [sort_values] ([numpy] argsort).
    - Code that can raise returns a sum or an option: the column check
      and the grouping of stage 1, the progress bar and the column
      assignments of stage 2. *)

From Stdlib Require Import Bool Arith Lia List ZArith QArith Qcanon Qround.
From Stdlib Require Import Ascii String Permutation Sorted OrdersEx Lqa.
Import ListNotations.

Open Scope string_scope.
Open Scope list_scope.

(* ================================================================== *)
(** ** Text helpers (Python [str] methods used by the script)          *)
(* ================================================================== *)

Module Text.

(** [c.lower()] on one ASCII character. *)
Definition lower_char (c : ascii) : ascii :=
  let n := nat_of_ascii c in
  if (65 <=? n)%nat && (n <=? 90)%nat then ascii_of_nat (n + 32) else c.

(** [s.lower()]. *)
Fixpoint lower (s : string) : string :=
  match s with
  | EmptyString => EmptyString
  | String c s' => String (lower_char c) (lower s')
  end.

(** [pat in s]: [pat] occurs in [s] as a contiguous substring. *)
Fixpoint contains (pat s : string) : bool :=
  prefix pat s ||
  match s with
  | EmptyString => false
  | String _ s' => contains pat s'
  end.

(** [s.startswith(pat)]. *)
Definition startswith (pat s : string) : bool := prefix pat s.

(** Case-insensitive substring test, as [k.lower() in col.lower()] and as
    [str.contains(pat, case=False)] for a pattern of plain letters. *)
Definition icontains (pat s : string) : bool :=
  contains (lower pat) (lower s).

(** [c.isspace()] on ASCII: tab, LF, VT, FF, CR, FS, GS, RS, US, space. *)
Definition is_space (c : ascii) : bool :=
  let n := nat_of_ascii c in
  ((9 <=? n)%nat && (n <=? 13)%nat) || ((28 <=? n)%nat && (n <=? 32)%nat).

Definition newline : ascii := ascii_of_nat 10.

(** [s.replace('\n', '')]. *)
Fixpoint remove_newlines (s : string) : string :=
  match s with
  | EmptyString => EmptyString
  | String c s' =>
      if Ascii.eqb c newline then remove_newlines s'
      else String c (remove_newlines s')
  end.

Fixpoint lstrip (s : string) : string :=
  match s with
  | EmptyString => EmptyString
  | String c s' => if is_space c then lstrip s' else s
  end.

Fixpoint rstrip (s : string) : string :=
  match s with
  | EmptyString => EmptyString
  | String c s' =>
      match rstrip s' with
      | EmptyString => if is_space c then EmptyString else String c EmptyString
      | r => String c r
      end
  end.

(** [s.strip()]. *)
Definition strip (s : string) : string := rstrip (lstrip s).




End Text.

(* ================================================================== *)
(** ** Numbers                                                         *)
(* ================================================================== *)

Module Num.

Open Scope Qc_scope.

Definition of_Z (z : Z) : Qc := Q2Qc (inject_Z z).

(** [x < y] and [x > y] as booleans. *)
Definition ltb (x y : Qc) : bool :=
  match x ?= y with Lt => true | _ => false end.
Definition gtb (x y : Qc) : bool := ltb y x.

(** [x <= y] as a boolean. *)
Definition leb (x y : Qc) : bool := negb (ltb y x).

Definition of_nat (n : nat) : Qc := of_Z (Z.of_nat n).

(** Nearest integer, ties to even (numpy [rint], Python [round]). *)
Definition rint (x : Qc) : Z :=
  let f := Qfloor x in
  match Qccompare (Qcminus x (of_Z f)) (Q2Qc (1 # 2)) with
  | Lt => f
  | Gt => (f + 1)%Z
  | Eq => if Z.even f then f else (f + 1)%Z
  end.

(** [round(x, 2)]. *)
Definition round2 (x : Qc) : Qc := of_Z (rint (x * of_Z 100)) / of_Z 100.

(** The divisor of line 78: one crore. *)
Definition crore : Qc := of_Z 10000000.

Definition sum (l : list Qc) : Qc := fold_right Qcplus 0 l.

End Num.

(* ================================================================== *)
(** ** Data model                                                      *)
(* ================================================================== *)

(** A CSV field after [pd.read_csv]: text, or missing ([None], NaN). *)
Definition cell : Type := option string.

(** The uploaded table: its header and its records, each record holding
    one cell per header position (short records read as missing). *)
Record DataFrame : Type := {
  columns : list string;
  records : list (list cell)
}.

(** How a run can stop before producing a ranking. *)
Inductive Failure : Type :=
| SchemaMismatch                 (* lines 63-65: [st.error] then [st.stop] *)
| KeyError (key : string).       (* line 77: no column of that name *)

(** The four detected columns (lines 57-61); [None] is Python's [None]. *)
Record ColumnBinding : Type := {
  person_col : option string;
  type_col : option string;
  val_col : option string;
  mode_col : option string
}.

(** One row of [grouped_df]: index label, [SYMBOL], the summed value
    column and ['Value (Cr)']. *)
Record Signal : Type := {
  idx : nat;
  SYMBOL : string;
  Value : Qc;
  Value_Cr : Qc
}.

(** A value read from the quote dictionary: a number or [None]. *)
Inductive pyval : Type :=
| PyNone
| PyNum (q : Qc).

(** The part of [ticker.info] the script reads; a field is [None] when
    the key is absent from the dictionary. *)
Record Info : Type := {
  trailingPE : option pyval;
  returnOnEquity : option pyval;
  debtToEquity : option pyval;
  currentPrice : option pyval
}.

(** One row of [top_picks] after lines 141-144. *)
Record Pick : Type := {
  row : Signal;
  Price : pyval;
  PE : Qc;
  ROE_pct : Qc;
  Debt_Eq : Qc
}.

(** The three sliders of lines 31-33. *)
Record Thresholds : Type := {
  pe_limit : Qc;
  roe_limit : Qc;
  debt_limit : Qc
}.

(** The four accumulators of the scanning loop (lines 104-107), with the
    log of the symbols announced on line 111. *)
Record ScanLists : Type := {
  pe_ratios : list Qc;
  roes : list Qc;
  debt_ratios : list Qc;
  current_prices : list pyval;
  scanned : list string
}.

(** What stage 2 leaves behind: the scanned table and its two views. *)
Record Report : Type := {
  top_picks : list Pick;
  gold_stocks : list Pick;
  rejected : list Pick
}.

(* ================================================================== *)
(** ** Stage 1: header, column detection, filters                      *)
(* ================================================================== *)

(** Line 50: [df.columns.str.replace('\n', '', regex=False).str.strip()]. *)
Definition normalize_column (c : string) : string :=
  Text.strip (Text.remove_newlines c).

Definition normalize_columns (cols : list string) : list string :=
  map normalize_column cols.

(** Line 38: [all(k.lower() in col.lower() for k in keywords)]. *)
Definition col_matches (keywords : list string) (col : string) : bool :=
  forallb (fun k => Text.contains (Text.lower k) (Text.lower col)) keywords.

(** Lines 36-40. *)
Definition get_col_name (cols : list string) (keywords : list string)
  : option string :=
  find (col_matches keywords) cols.

(** Python truth value of a column name or [None]. *)
Definition truthy (o : option string) : bool :=
  match o with
  | Some s => negb (String.eqb s "")
  | None => false
  end.

(** Lines 57-61. *)
Definition column_mapping (cols : list string) : ColumnBinding :=
  let person := get_col_name cols ["Category"; "Person"] in
  let type0 := get_col_name cols ["Transaction"; "Type"] in
  let type1 :=
    if negb (truthy type0) then get_col_name cols ["Acquis"; "Dispos"]
    else type0 in
  let val := get_col_name cols ["Value"; "Security"] in
  let mode := get_col_name cols ["Mode"; "Acquis"] in
  {| person_col := person; type_col := type1; val_col := val;
     mode_col := mode |}.

(** Line 63: [all([person_col, type_col, val_col, mode_col])]. *)
Definition all_bound (b : ColumnBinding) : bool :=
  forallb truthy [person_col b; type_col b; val_col b; mode_col b].

(** Position of the column called [name]. *)
Fixpoint position (name : string) (cols : list string) : option nat :=
  match cols with
  | [] => None
  | c :: cols' =>
      if String.eqb name c then Some 0%nat
      else option_map S (position name cols')
  end.

(** [row[name]]: the cell of a record under the column called [name]. *)
Definition field (cols : list string) (name : string) (r : list cell) : cell :=
  match position name cols with
  | Some i => nth i r None
  | None => None
  end.

(** [.str.contains(pat, case=False, na=False)] on one cell. *)
Definition str_contains (pat : string) (c : cell) : bool :=
  match c with
  | Some s => Text.icontains pat s
  | None => false
  end.

(** [.str.startswith(pat, na=False)] on one cell. *)
Definition str_startswith (pat : string) (c : cell) : bool :=
  match c with
  | Some s => Text.startswith pat s
  | None => false
  end.

(** The three row masks of lines 68-73. *)
Definition is_promoter (cols : list string) (person : string)
  (r : list cell) : bool :=
  str_contains "Promoter" (field cols person r).

Definition is_buy (cols : list string) (type : string)
  (r : list cell) : bool :=
  str_contains "Buy" (field cols type r) || str_contains "Acqui" (field cols type r).

Definition is_market (cols : list string) (mode : string)
  (r : list cell) : bool :=
  str_startswith "Market P" (field cols mode r).

(** Lines 68-73: [promoter_df], [buy_df], [final_df]. *)
Definition classify (cols : list string) (person type mode : string)
  (rows : list (list cell)) : list (list cell) :=
  let promoter_df := filter (is_promoter cols person) rows in
  let buy_df := filter (is_buy cols type) promoter_df in
  filter (is_market cols mode) buy_df.

(* ================================================================== *)
(** ** Stage 1: grouping and ranking                                   *)
(* ================================================================== *)

(** A missing number adds nothing to a group sum. *)
Definition nan_to_zero (v : option Qc) : Qc :=
  match v with
  | Some q => q
  | None => Q2Qc 0
  end.

(** One record joins the running groups, which are kept in ascending
    order of their key ([groupby] sorts its keys). *)
Fixpoint add_to_group (k : string) (v : Qc) (g : list (string * Qc))
  : list (string * Qc) :=
  match g with
  | [] => [(k, v)]
  | (k', s) :: g' =>
      match String_as_OT.compare k k' with
      | Eq => (k', (s + v)%Qc) :: g'
      | Lt => (k, v) :: g
      | Gt => (k', s) :: add_to_group k v g'
      end
  end.

Definition group_step (g : list (string * Qc)) (r : cell * option Qc)
  : list (string * Qc) :=
  match fst r with
  | Some k => add_to_group k (nan_to_zero (snd r)) g
  | None => g
  end.

(** [groupby('SYMBOL')[val_col].sum()] over (symbol, value) pairs: records
    without a symbol form no group, missing values are skipped. *)
Definition groupby_sum (rows : list (cell * option Qc)) : list (string * Qc) :=
  fold_left group_step rows [].

(** [.reset_index()] and line 78. *)
Fixpoint to_signals (i : nat) (g : list (string * Qc)) : list Signal :=
  match g with
  | [] => []
  | (k, s) :: g' =>
      {| idx := i; SYMBOL := k; Value := s;
         Value_Cr := Num.round2 (s / Num.crore) |} :: to_signals (S i) g'
  end.

(** Positional selection [rows.iloc[ixs]]. *)
Definition iloc {A : Type} (rows : list A) (ixs : list nat) : list A :=
  flat_map (fun i => match nth_error rows i with
                     | Some r => [r]
                     | None => []
                     end) ixs.

(** What one symbol contributes, read off the (symbol, value) pairs. *)
Definition group_values (k : string) (rows : list (cell * option Qc))
  : list Qc :=
  map (fun r => nan_to_zero (snd r))
      (filter (fun r => match fst r with
                        | Some k' => String.eqb k k'
                        | None => false
                        end) rows).

(** The sum recorded for a key among the groups, if the key has one. *)
Fixpoint group_total (k : string) (g : list (string * Qc)) : option Qc :=
  match g with
  | [] => None
  | (k', s) :: g' => if String.eqb k k' then Some s else group_total k g'
  end.

(** Groups listed in strictly ascending order of their key. *)
Definition keys_ascending (g : list (string * Qc)) : Prop :=
  StronglySorted (fun x y => String_as_OT.lt (fst x) (fst y)) g.

(** A ranking is descending in ['Value (Cr)']. *)
Definition descending (l : list Signal) : Prop :=
  StronglySorted (fun a b => (Value_Cr b <= Value_Cr a)%Qc) l.

(** Rows of equal ['Value (Cr)'] appear in ascending order of their
    [grouped_df] label, that is in grouping order. *)
Definition ties_in_grouping_order (l : list Signal) : Prop :=
  StronglySorted
    (fun a b => Value_Cr a = Value_Cr b -> (idx a < idx b)%nat) l.

(** What [numpy] promises of an argsort whatever the sort kind: the
    result lists every position once and reads the keys in ascending
    order. *)
Definition argsort_spec (argsort : list Qc -> list nat) : Prop :=
  forall keys,
    Permutation (argsort keys) (seq 0 (List.length keys)) /\
    StronglySorted Qcle (map (fun i => nth i keys (Q2Qc 0)) (argsort keys)).

Section Stage1.

(** [pd.to_numeric] on the text of one field; [None] when it is not a
    number ([errors='coerce']). *)
Variable to_numeric : string -> option Qc.

(** [numpy]'s argsort with the default kind of [sort_values]. *)
Variable argsort : list Qc -> list nat.

(** Line 76 on one cell. *)
Definition coerce (c : cell) : option Qc :=
  match c with
  | Some s => to_numeric s
  | None => None
  end.

(** The (symbol, value) pairs line 77 works on. *)
Definition symbol_values (cols : list string) (val : string)
  (final_df : list (list cell)) : list (cell * option Qc) :=
  map (fun r => (field cols "SYMBOL" r, coerce (field cols val r))) final_df.

(** Lines 76-78: [grouped_df] before it is sorted. *)
Definition grouped (cols : list string) (val : string)
  (final_df : list (list cell)) : list Signal :=
  to_signals 0 (groupby_sum (symbol_values cols val final_df)).

(** The indexer of a descending single-key sort, as pandas builds it:
    reverse keys and positions, argsort, reverse again. *)
Definition nargsort_descending (keys : list Qc) : list nat :=
  let non_nans := rev keys in
  let non_nan_idx := rev (seq 0 (List.length keys)) in
  let indexer := iloc non_nan_idx (argsort non_nans) in
  rev indexer.

(** Line 79: [sort_values(by='Value (Cr)', ascending=False)]. *)
Definition sort_values (g : list Signal) : list Signal :=
  iloc g (nargsort_descending (map Value_Cr g)).

(** Lines 50-79 for an uploaded table. *)
Definition load_and_rank (df : DataFrame) : Failure + list Signal :=
  let cols := normalize_columns (columns df) in
  let b := column_mapping cols in
  if negb (all_bound b) then inl SchemaMismatch
  else
    match person_col b, type_col b, val_col b, mode_col b with
    | Some person, Some type, Some val, Some mode =>
        let final_df := classify cols person type mode (records df) in
        match position "SYMBOL" cols with
        | Some _ => inr (sort_values (grouped cols val final_df))
        | None => inl (KeyError "SYMBOL")
        end
    | _, _, _, _ => inl SchemaMismatch
    end.

End Stage1.

(* ================================================================== *)
(** ** Stage 2: the scan and the slider filters                        *)
(* ================================================================== *)

(** [info.get(key, 0)]. *)
Definition dict_get (entry : option pyval) : pyval :=
  match entry with
  | Some v => v
  | None => PyNum (Q2Qc 0)
  end.

(** [if x is None: x = 0] (lines 121-123). *)
Definition none_to_zero (v : pyval) : Qc :=
  match v with
  | PyNum q => q
  | PyNone => Q2Qc 0
  end.

Definition no_lists : ScanLists :=
  {| pe_ratios := []; roes := []; debt_ratios := []; current_prices := [];
     scanned := [] |}.

(** The four appends of one loop iteration. *)
Definition append4 (st : ScanLists) (symbol : string)
  (pe roe debt : Qc) (price : pyval) : ScanLists :=
  {| pe_ratios := pe_ratios st ++ [pe];
     roes := roes st ++ [roe];
     debt_ratios := debt_ratios st ++ [debt];
     current_prices := current_prices st ++ [price];
     scanned := scanned st ++ [symbol] |}.

(** Line 143 on one entry: [round(r * 100, 2)]. *)
Definition to_percent (r : Qc) : Qc := Num.round2 (r * Num.of_Z 100).

(** Assigning a list as a column: pandas refuses a list whose length is
    not the number of rows. *)
Definition fits {A B : Type} (rows : list A) (col : list B) : bool :=
  (List.length col =? List.length rows)%nat.

(** Lines 141-144: the four lists become columns of [top_picks]; [None]
    when an assignment is refused. *)
Definition add_data (picks : list Signal) (st : ScanLists)
  : option (list Pick) :=
  if fits picks (current_prices st) && fits picks (pe_ratios st) &&
     fits picks (roes st) && fits picks (debt_ratios st)
  then
    Some
      (map (fun x =>
              match x with
              | (r, (price, (pe, (roe, debt)))) =>
                  {| row := r; Price := price; PE := pe; ROE_pct := roe;
                     Debt_Eq := debt |}
              end)
         (combine picks
            (combine (current_prices st)
               (combine (pe_ratios st)
                  (combine (map to_percent (roes st)) (debt_ratios st))))))
  else None.

(** [progress_bar.progress(v)] accepts a fraction between 0 and 1 and
    raises on any other value. *)
Definition progress_ok (v : Qc) : bool :=
  Num.leb (Q2Qc 0) v && Num.leb v (Q2Qc 1).

(** The mask of lines 147-152 on one row. *)
Definition passes (th : Thresholds) (p : Pick) : bool :=
  Num.gtb (PE p) (Q2Qc 0) &&
  Num.ltb (PE p) (pe_limit th) &&
  Num.gtb (ROE_pct p) (roe_limit th) &&
  Num.ltb (Debt_Eq p) (debt_limit th * Num.of_Z 100)%Qc.

Definition label (p : Pick) : nat := idx (row p).

(** [index.isin(labels)] on one label. *)
Definition isin (labels : list nat) (i : nat) : bool :=
  existsb (Nat.eqb i) labels.

(** Lines 147-152 and 160 on a scanned table; the table itself is handed
    on untouched. *)
Definition apply_filters (th : Thresholds) (picks : list Pick) : Report :=
  let gold := filter (passes th) picks in
  {| top_picks := picks;
     gold_stocks := gold;
     rejected := filter (fun p => negb (isin (map label gold) (label p))) picks |}.

(** The acceptance condition as the specification words it. *)
Definition accepted_by_spec (th : Thresholds) (p : Pick) : Prop :=
  (PE p > Q2Qc 0)%Qc /\ (PE p < pe_limit th)%Qc /\
  (ROE_pct p > roe_limit th)%Qc /\
  (Debt_Eq p < debt_limit th * Num.of_Z 100)%Qc.

Section Stage2.

(** [yf.Ticker(name).info]: the quote dictionary, or [None] when the
    lookup raises. *)
Variable ticker_info : string -> option Info.

(** The guarded part of one iteration (lines 112-134). *)
Definition try_lookup (st : ScanLists) (symbol : string) : ScanLists :=
  match ticker_info (symbol ++ ".NS") with
  | Some info =>
      let pe := dict_get (trailingPE info) in
      let roe := dict_get (returnOnEquity info) in
      let debt := dict_get (debtToEquity info) in
      let price := dict_get (currentPrice info) in
      append4 st symbol (none_to_zero pe) (none_to_zero roe)
        (none_to_zero debt) price
  | None =>
      append4 st symbol (Q2Qc 0) (Q2Qc 0) (Q2Qc 0) (PyNum (Q2Qc 0))
  end.

(** One iteration of the loop of lines 110-136: the guarded lookup, then
    the progress bar set to [(i + 1) / num_stocks], outside the guard;
    [None] when that call raises. *)
Definition scan_one (num_stocks : nat) (st : ScanLists) (i : nat)
  (symbol : string) : option ScanLists :=
  let st' := try_lookup st symbol in
  if progress_ok (Num.of_nat (i + 1) / Num.of_nat num_stocks)%Qc
  then Some st' else None.

(** [for i, symbol in enumerate(symbols)], counting from [i]. *)
Fixpoint scanning_loop (num_stocks : nat) (i : nat) (symbols : list string)
  (st : ScanLists) : option ScanLists :=
  match symbols with
  | [] => Some st
  | symbol :: rest =>
      match scan_one num_stocks st i symbol with
      | Some st' => scanning_loop num_stocks (S i) rest st'
      | None => None
      end
  end.

(** Lines 102-144: the scanned table; [None] when the scan raises. *)
Definition enrich (grouped_df : list Signal) (num_stocks : nat)
  : option (list Pick) :=
  let picks := firstn num_stocks grouped_df in
  match scanning_loop num_stocks 0 (map SYMBOL picks) no_lists with
  | Some st => add_data picks st
  | None => None
  end.

(** What one lookup contributes to each of the four lists. *)
Definition quote_pe (symbol : string) : Qc :=
  match ticker_info (symbol ++ ".NS") with
  | Some info => none_to_zero (dict_get (trailingPE info))
  | None => Q2Qc 0
  end.

Definition quote_roe (symbol : string) : Qc :=
  match ticker_info (symbol ++ ".NS") with
  | Some info => none_to_zero (dict_get (returnOnEquity info))
  | None => Q2Qc 0
  end.

Definition quote_debt (symbol : string) : Qc :=
  match ticker_info (symbol ++ ".NS") with
  | Some info => none_to_zero (dict_get (debtToEquity info))
  | None => Q2Qc 0
  end.

Definition quote_price (symbol : string) : pyval :=
  match ticker_info (symbol ++ ".NS") with
  | Some info => dict_get (currentPrice info)
  | None => PyNum (Q2Qc 0)
  end.

(** The row a single symbol yields, read directly off its lookup. *)
Definition pick_of (r : Signal) : Pick :=
  {| row := r;
     Price := quote_price (SYMBOL r);
     PE := quote_pe (SYMBOL r);
     ROE_pct := to_percent (quote_roe (SYMBOL r));
     Debt_Eq := quote_debt (SYMBOL r) |}.

(** Lines 98-161. *)
Definition deep_scan (grouped_df : list Signal) (num_stocks : nat)
  (th : Thresholds) : option Report :=
  option_map (apply_filters th) (enrich grouped_df num_stocks).

End Stage2.

(** All four fields of a row are zero. *)
Definition all_zero (p : Pick) : Prop :=
  Price p = PyNum (Q2Qc 0) /\ PE p = Q2Qc 0 /\ ROE_pct p = Q2Qc 0 /\
  Debt_Eq p = Q2Qc 0.

(* ================================================================== *)
(** ** Instances of the library services, to run the pipeline          *)
(* ================================================================== *)

Definition digit_of (c : ascii) : option Z :=
  let n := nat_of_ascii c in
  if (48 <=? n)%nat && (n <=? 57)%nat then Some (Z.of_nat (n - 48)) else None.

Fixpoint read_digits (s : string) (acc : Z) : option Z :=
  match s with
  | EmptyString => Some acc
  | String c s' =>
      match digit_of c with
      | Some d => read_digits s' (10 * acc + d)%Z
      | None => None
      end
  end.

(** A numeric reading of plain digit strings; anything else is not a
    number here. It agrees with [pd.to_numeric] on such fields. *)
Definition to_numeric_digits (s : string) : option Qc :=
  match s with
  | EmptyString => None
  | _ => option_map Num.of_Z (read_digits s 0%Z)
  end.

(** Insertion sort under a boolean order. *)
Fixpoint insert_by {A : Type} (leb : A -> A -> bool) (x : A) (l : list A)
  : list A :=
  match l with
  | [] => [x]
  | y :: l' => if leb x y then x :: l else y :: insert_by leb x l'
  end.

Definition sort_by {A : Type} (leb : A -> A -> bool) (l : list A) : list A :=
  fold_right (insert_by leb) [] l.

(** Key order, earlier position first among equal keys. *)
Definition leb_keep (a b : Qc * nat) : bool :=
  Num.ltb (fst a) (fst b) || (Num.leb (fst a) (fst b) && (snd a <=? snd b)%nat).


Definition argsort_by (leb : Qc * nat -> Qc * nat -> bool) (keys : list Qc)
  : list nat :=
  map snd (sort_by leb (combine keys (seq 0 (List.length keys)))).

(** An argsort that keeps equal keys in their input order. *)
Definition argsort_keep : list Qc -> list nat := argsort_by leb_keep.


(** A quote service for the examples: one symbol raises, one lacks its
    P/E, the others answer in full. *)
Definition sample_info (pe roe debt price : Qc) : Info :=
  {| trailingPE := Some (PyNum pe); returnOnEquity := Some (PyNum roe);
     debtToEquity := Some (PyNum debt); currentPrice := Some (PyNum price) |}.

Definition sample_quotes (name : string) : option Info :=
  if String.eqb name "BAD.NS" then None
  else if String.eqb name "NOPE.NS" then
    Some {| trailingPE := None;
            returnOnEquity := Some (PyNum (Q2Qc (1 # 5)));
            debtToEquity := Some (PyNum (Num.of_Z 50));
            currentPrice := Some (PyNum (Num.of_Z 100)) |}
  else Some (sample_info (Num.of_Z 25) (Q2Qc (15 # 100)) (Num.of_Z 80)
               (Num.of_Z 120)).

Definition signal (i : nat) (s : string) (v : Z) : Signal :=
  {| idx := i; SYMBOL := s; Value := Num.of_Z v;
     Value_Cr := Num.round2 (Num.of_Z v / Num.crore) |}.

(** The NSE header, as columns are named once cleaned. *)
Definition nse_columns : list string :=
  ["SYMBOL"; "CATEGORY OF PERSON"; "ACQUISITION/DISPOSAL TRANSACTION TYPE";
   "VALUE OF SECURITY (ACQUIRED/DISPLOSED)"; "MODE OF ACQUISITION"].

Definition nse_row (symbol person type value mode : string) : list cell :=
  [Some symbol; Some person; Some type; Some value; Some mode].

Definition scenario1 : DataFrame :=
  {| columns := nse_columns;
     records := [nse_row "ABC" "Promoter Group" "Buy" "50000000"
                   "Market Purchase"] |}.


Definition scenario3 : DataFrame :=
  {| columns := nse_columns;
     records := [nse_row "XYZ" "Promoter Group" "Buy" "10000000"
                   "Market Purchase";
                 nse_row "XYZ" "Promoters" "Acquisition" "20000000"
                   "Market Purchase"] |}.

(** Scenario 4: P/E 25, ROE 15 %, debt/equity 80. *)
Definition scenario4 : Pick :=
  {| row := signal 0 "ABC" 50000000; Price := PyNum (Num.of_Z 120);
     PE := Num.of_Z 25; ROE_pct := Num.of_Z 15; Debt_Eq := Num.of_Z 80 |}.

Definition sliders (pe roe : Z) (debt : Qc) : Thresholds :=
  {| pe_limit := Num.of_Z pe; roe_limit := Num.of_Z roe; debt_limit := debt |}.


(** A scanned row whose P/E is not available. *)
Definition unavailable_pick : Pick :=
  {| row := signal 1 "BAD" 20000000; Price := PyNum (Q2Qc 0); PE := Q2Qc 0;
     ROE_pct := Q2Qc 0; Debt_Eq := Q2Qc 0 |}.

(** A ranking of four companies for the scan examples. *)
Definition sample_ranking : list Signal :=
  [signal 2 "GOOD" 90000000; signal 0 "BAD" 50000000;
   signal 3 "NOPE" 30000000; signal 1 "LAST" 10000000].


(** Two groups of equal value. *)
Definition tied_groups : list Signal :=
  [signal 0 "AAA" 10000000; signal 1 "BBB" 10000000].

(* ================================================================== *)
(** ** Properties the statements below are written with                *)
(* ================================================================== *)


(** [word] occurs in [s] once both are put in lower case. *)
Definition occurs_nocase (word s : string) : Prop :=
  exists a z, Text.lower s = (a ++ Text.lower word ++ z)%string.


(** The cell holds text in which [word] occurs, case ignored. *)
Definition mentions (word : string) (c : cell) : Prop :=
  exists s, c = Some s /\ occurs_nocase word s.

(** The cell holds text that begins with [p], letter for letter. *)
Definition begins_with (p : string) (c : cell) : Prop :=
  exists s z, c = Some s /\ s = (p ++ z)%string.


(** [l1] is [l2] with some elements left out, order kept. *)
Inductive Subsequence {A : Type} : list A -> list A -> Prop :=
| Subsequence_nil : Subsequence [] []
| Subsequence_skip : forall x l1 l2,
    Subsequence l1 l2 -> Subsequence l1 (x :: l2)
| Subsequence_keep : forall x l1 l2,
    Subsequence l1 l2 -> Subsequence (x :: l1) (x :: l2).

(** The lookup of a symbol failed in one of the ways the specification lists: it
    raised, or the dictionary it returned lacks one of the four keys. *)
Definition lookup_failed (ticker_info : string -> option Info)
  (symbol : string) : Prop :=
  match ticker_info (symbol ++ ".NS")%string with
  | None => True
  | Some info =>
      trailingPE info = None \/ returnOnEquity info = None \/
      debtToEquity info = None \/ currentPrice info = None
  end.

(** The sliders with another P/E ceiling. *)
Definition with_pe_limit (pe : Qc) (th : Thresholds) : Thresholds :=
  {| pe_limit := pe; roe_limit := roe_limit th; debt_limit := debt_limit th |}.

(* ================================================================== *)
(** ** The rest of the script: what is shown, the sliders, the whole run *)
(* ================================================================== *)

(** The symbols a column of cells carries, missing cells left out. *)
Definition symbols_of (cs : list cell) : list string :=
  flat_map (fun c => match c with Some k => [k] | None => [] end) cs.


(** The rows of the upload that pass the three filters, under the columns
    the detection bound (lines 57-73); none when a role is unbound. *)
Definition qualifying_rows (df : DataFrame) : list (list cell) :=
  let cols := normalize_columns (columns df) in
  let b := column_mapping cols in
  match person_col b, type_col b, val_col b, mode_col b with
  | Some person, Some type, Some _, Some mode =>
      classify cols person type mode (records df)
  | _, _, _, _ => []
  end.

(** The value of line 136 at loop index [i]: [(i + 1) / num_stocks]. *)
Definition progress_fraction (num_stocks i : nat) : Qc :=
  (Num.of_nat (i + 1) / Num.of_nat num_stocks)%Qc.

(** The ranges of the three sliders (lines 31-33): P/E ceiling 10 to 100,
    ROE floor 0 to 30, debt ceiling 0.0 to 5.0. *)
Definition slider_range (th : Thresholds) : Prop :=
  (Num.of_Z 10 <= pe_limit th)%Qc /\ (pe_limit th <= Num.of_Z 100)%Qc /\
  (Q2Qc 0 <= roe_limit th)%Qc /\ (roe_limit th <= Num.of_Z 30)%Qc /\
  (Q2Qc 0 <= debt_limit th)%Qc /\ (debt_limit th <= Num.of_Z 5)%Qc.

(** The slider positions when the page opens. *)
Definition default_sliders : Thresholds := sliders 60 10 (Num.of_Z 2).

(** One set of sliders is at least as permissive as another. *)
Definition looser (th th' : Thresholds) : Prop :=
  (pe_limit th <= pe_limit th')%Qc /\ (roe_limit th' <= roe_limit th)%Qc /\
  (debt_limit th <= debt_limit th')%Qc.



Section Script.

Variable to_numeric : string -> option Qc.
Variable argsort : list Qc -> list nat.
Variable ticker_info : string -> option Info.


End Script.

(** A quote service whose answers carry no debt/equity figure. *)
Definition no_debt_figure : Info :=
  {| trailingPE := Some (PyNum (Num.of_Z 25));
     returnOnEquity := Some (PyNum (Q2Qc (15 # 100)));
     debtToEquity := None;
     currentPrice := Some (PyNum (Num.of_Z 120)) |}.

Definition no_debt_quotes (name : string) : option Info := Some no_debt_figure.

(** Two filtered rows whose totals differ by less than the rounding. *)
Definition close_totals : list (list cell) :=
  [nse_row "AAA" "Promoter" "Buy" "10000000" "Market Purchase";
   nse_row "BBB" "Promoter" "Buy" "10010000" "Market Purchase"].

(** A ranking of two companies and the service that fails on the first. *)
Definition short_ranking : list Signal :=
  [signal 0 "BAD" 50000000; signal 1 "GOOD" 20000000].

(* ================================================================== *)
(** * Facts about the text helpers                                     *)
(* ================================================================== *)

Lemma prefix_app (p s : string) :
  prefix p s = true <-> exists z, s = (p ++ z)%string.
Proof.
  revert s; induction p as [|c p IH]; intros s.
  - destruct s; simpl; split; intros; eauto.
  - destruct s as [|d s]; simpl.
    + split; [discriminate | intros [z Hz]; discriminate].
    + destruct (ascii_dec c d) as [->|Hcd].
      * rewrite IH. split; intros [z Hz]; exists z; congruence.
      * split; [discriminate | intros [z Hz]; congruence].
Qed.

Lemma contains_app (p s : string) :
  Text.contains p s = true <-> exists a z, s = (a ++ p ++ z)%string.
Proof.
  induction s as [|c s IH]; simpl.
  - rewrite orb_false_r. split.
    + intros H. apply (prefix_app p "") in H. destruct H as [z Hz].
      exists "", z. exact Hz.
    + intros [a [z H]]. destruct a; simpl in H.
      * apply (prefix_app p ""). eauto.
      * discriminate.
  - rewrite orb_true_iff, IH. split.
    + intros [H | [a [z H]]].
      * apply (prefix_app p (String c s)) in H. destruct H as [z Hz].
        exists "", z. exact Hz.
      * exists (String c a), z. simpl. now rewrite H.
    + intros [a [z H]]. destruct a as [|d a]; simpl in H.
      * left. apply (prefix_app p (String c s)). eauto.
      * right. exists a, z. congruence.
Qed.









(* ================================================================== *)
(** * Column detection                                                 *)
(* ================================================================== *)




(** A detected name is never empty, so its truth value tells only whether
    the search found a column. *)
Lemma truthy_found (cols keywords : list string) :
  col_matches keywords "" = false ->
  truthy (get_col_name cols keywords) =
  match get_col_name cols keywords with Some _ => true | None => false end.
Proof.
  intros Hempty. unfold get_col_name.
  destruct (find (col_matches keywords) cols) as [c|] eqn:E; [|reflexivity].
  apply find_some in E. destruct E as [_ Hc]. simpl.
  destruct (String.eqb_spec c ""); [subst; congruence | reflexivity].
Qed.

Lemma type_col_fallback (cols : list string) :
  type_col (column_mapping cols) =
  match get_col_name cols ["Transaction"; "Type"] with
  | Some c => Some c
  | None => get_col_name cols ["Acquis"; "Dispos"]
  end.
Proof.
  unfold column_mapping; simpl type_col.
  rewrite truthy_found by reflexivity.
  destruct (get_col_name cols ["Transaction"; "Type"]); reflexivity.
Qed.

Lemma all_bound_iff (cols : list string) :
  let b := column_mapping cols in
  all_bound b = true <->
  person_col b <> None /\ type_col b <> None /\ val_col b <> None /\
  mode_col b <> None.
Proof.
  intros b. unfold all_bound. cbn [forallb].
  rewrite !andb_true_iff.
  assert (Hp : truthy (person_col b) = true <-> person_col b <> None).
  { unfold b, column_mapping; simpl person_col.
    rewrite truthy_found by reflexivity.
    destruct (get_col_name cols ["Category"; "Person"]);
      split; congruence. }
  assert (Ht : truthy (type_col b) = true <-> type_col b <> None).
  { unfold b. rewrite type_col_fallback.
    destruct (get_col_name cols ["Transaction"; "Type"]) as [c|] eqn:E.
    - rewrite <- E. rewrite truthy_found by reflexivity. rewrite E.
      split; congruence.
    - rewrite truthy_found by reflexivity.
      destruct (get_col_name cols ["Acquis"; "Dispos"]); split; congruence. }
  assert (Hv : truthy (val_col b) = true <-> val_col b <> None).
  { unfold b, column_mapping; simpl val_col.
    rewrite truthy_found by reflexivity.
    destruct (get_col_name cols ["Value"; "Security"]); split; congruence. }
  assert (Hm : truthy (mode_col b) = true <-> mode_col b <> None).
  { unfold b, column_mapping; simpl mode_col.
    rewrite truthy_found by reflexivity.
    destruct (get_col_name cols ["Mode"; "Acquis"]); split; congruence. }
  tauto.
Qed.

Lemma position_In (name : string) (cols : list string) :
  position name cols = None <-> ~ In name cols.
Proof.
  induction cols as [|c cols IH]; simpl; [intuition|].
  destruct (String.eqb_spec name c) as [->|Hne].
  - split; [discriminate | intros H; exfalso; apply H; auto].
  - destruct (position name cols); simpl.
    + split; [discriminate|]. intros H. exfalso. apply H. right.
      destruct (in_dec string_dec name cols) as [Hin|Hin]; [exact Hin|].
      apply IH in Hin. discriminate.
    + split; [|reflexivity]. intros _ [H|H]; [congruence|].
      now apply IH in H.
Qed.

(** The run stops on the column check exactly when a role is unbound. *)
Lemma schema_mismatch_iff (to_numeric : string -> option Qc)
  (argsort : list Qc -> list nat) (df : DataFrame) :
  load_and_rank to_numeric argsort df = inl SchemaMismatch <->
  all_bound (column_mapping (normalize_columns (columns df))) = false.
Proof.
  unfold load_and_rank.
  destruct (all_bound (column_mapping (normalize_columns (columns df))))
    eqn:E; cbn [negb].
  - apply all_bound_iff in E. destruct E as [Hp [Ht [Hv Hm]]].
    destruct (person_col _); [|congruence].
    destruct (type_col _); [|congruence].
    destruct (val_col _); [|congruence].
    destruct (mode_col _); [|congruence].
    destruct (position "SYMBOL" _); split; intros H0; discriminate H0.
  - split; reflexivity.
Qed.




(* ================================================================== *)
(** * The row filters                                                  *)
(* ================================================================== *)

Lemma filter_Subsequence {A : Type} (f : A -> bool) (l : list A) :
  Subsequence (filter f l) l.
Proof.
  induction l as [|x l IH]; simpl; [constructor|].
  destruct (f x); now constructor.
Qed.


Lemma str_contains_mentions (word : string) (c : cell) :
  str_contains word c = true <-> mentions word c.
Proof.
  unfold str_contains, mentions, occurs_nocase, Text.icontains.
  destruct c as [s|].
  - rewrite contains_app. split.
    + intros H. exists s. auto.
    + intros [s' [E H]]. injection E as <-. exact H.
  - split; [discriminate | intros [s [E _]]; discriminate].
Qed.

Lemma str_startswith_begins (p : string) (c : cell) :
  str_startswith p c = true <-> begins_with p c.
Proof.
  unfold str_startswith, begins_with, Text.startswith.
  destruct c as [s|].
  - rewrite prefix_app. split.
    + intros [z H]. exists s, z. auto.
    + intros [s' [z [E H]]]. injection E as <-. eauto.
  - split; [discriminate | intros [s [z [E _]]]; discriminate].
Qed.



(* ================================================================== *)
(** * The slider filters                                               *)
(* ================================================================== *)

Lemma ltb_lt (x y : Qc) : Num.ltb x y = true <-> (x < y)%Qc.
Proof.
  unfold Num.ltb. rewrite Qclt_alt.
  destruct (x ?= y)%Qc; split; congruence.
Qed.

Lemma gtb_gt (x y : Qc) : Num.gtb x y = true <-> (x > y)%Qc.
Proof. unfold Num.gtb. apply ltb_lt. Qed.

Lemma leb_le (x y : Qc) : Num.leb x y = true <-> (x <= y)%Qc.
Proof.
  unfold Num.leb. rewrite negb_true_iff, <- not_true_iff_false, ltb_lt.
  split; [apply Qcnot_lt_le | apply Qcle_not_lt].
Qed.

Lemma not_ltb_le (x y : Qc) : Num.ltb x y = false -> (y <= x)%Qc.
Proof.
  intros H. apply Qcnot_lt_le. intros Hlt. apply ltb_lt in Hlt. congruence.
Qed.

Lemma passes_accepted (th : Thresholds) (p : Pick) :
  passes th p = true <-> accepted_by_spec th p.
Proof.
  unfold passes, accepted_by_spec.
  rewrite !andb_true_iff, !gtb_gt, !ltb_lt. tauto.
Qed.

Lemma isin_In (labels : list nat) (i : nat) :
  isin labels i = true <-> In i labels.
Proof.
  unfold isin. rewrite existsb_exists. split.
  - intros [j [Hj E]]. apply Nat.eqb_eq in E. now subst.
  - intros H. exists i. split; [exact H | apply Nat.eqb_refl].
Qed.

Lemma NoDup_map_injective {A B : Type} (f : A -> B) (l : list A) :
  NoDup (map f l) ->
  forall x y, In x l -> In y l -> f x = f y -> x = y.
Proof.
  induction l as [|a l IH]; simpl; intros Hnd x y Hx Hy E; [contradiction|].
  inversion Hnd as [|b m Hnotin Hnd']; subst.
  destruct Hx as [->|Hx], Hy as [->|Hy]; auto.
  - exfalso. apply Hnotin. rewrite E. now apply in_map.
  - exfalso. apply Hnotin. rewrite <- E. now apply in_map.
Qed.

Lemma gold_In (th : Thresholds) (picks : list Pick) (p : Pick) :
  In p (gold_stocks (apply_filters th picks)) <->
  In p picks /\ accepted_by_spec th p.
Proof.
  unfold apply_filters; simpl gold_stocks.
  rewrite filter_In, passes_accepted. reflexivity.
Qed.

Lemma rejected_In (th : Thresholds) (picks : list Pick) (p : Pick) :
  NoDup (map label picks) ->
  (In p (rejected (apply_filters th picks)) <->
   In p picks /\ ~ accepted_by_spec th p).
Proof.
  intros Hnd. unfold apply_filters; simpl rejected.
  rewrite filter_In, negb_true_iff, <- not_true_iff_false, isin_In.
  split; intros [Hp Hn]; split; auto.
  - intros Hacc. apply Hn. apply in_map.
    apply filter_In. split; [exact Hp | now apply passes_accepted].
  - intros Hl. apply in_map_iff in Hl. destruct Hl as [g [El Hg]].
    apply filter_In in Hg. destruct Hg as [Hg Hpass].
    assert (g = p) by (eapply NoDup_map_injective; eauto).
    subst g. apply Hn. now apply passes_accepted.
Qed.




(** C8: the filters hand the scanned table on unchanged, so evaluating
    them again, with the same or with other sliders, starts from the same
    rows and the same sliders give the same two views; and a row whose
    P/E is zero or below is rejected whatever the P/E ceiling. *)
Theorem C8_gate_pure :
  forall (th th' : Thresholds) (picks : list Pick),
    top_picks (apply_filters th picks) = picks /\
    apply_filters th (top_picks (apply_filters th picks)) =
      apply_filters th picks /\
    apply_filters th' (top_picks (apply_filters th picks)) =
      apply_filters th' picks /\
    top_picks (apply_filters th' (top_picks (apply_filters th picks))) =
      picks /\
    (forall p pe pe',
        NoDup (map label picks) -> In p picks -> (PE p <= Q2Qc 0)%Qc ->
        In p (rejected (apply_filters (with_pe_limit pe th) picks)) /\
        In p (rejected (apply_filters (with_pe_limit pe' th) picks)) /\
        ~ In p (gold_stocks (apply_filters (with_pe_limit pe th) picks)) /\
        ~ In p (gold_stocks (apply_filters (with_pe_limit pe' th) picks))).
Proof.
  intros th th' picks.
  split; [reflexivity|]. split; [reflexivity|]. split; [reflexivity|].
  split; [reflexivity|].
  intros p pe pe' Hnd Hp Hle.
  assert (Hno : forall t, ~ accepted_by_spec t p).
  { intros t [Hpos _]. exact (Qcle_not_lt _ _ Hle Hpos). }
  split; [|split; [|split]].
  - apply rejected_In; auto.
  - apply rejected_In; auto.
  - intros Hg. apply gold_In in Hg. destruct Hg as [_ Hacc].
    exact (Hno _ Hacc).
  - intros Hg. apply gold_In in Hg. destruct Hg as [_ Hacc].
    exact (Hno _ Hacc).
Qed.

(* ================================================================== *)
(** * The scan                                                         *)
(* ================================================================== *)

Lemma of_Z_le (a b : Z) : (a <= b)%Z -> (Num.of_Z a <= Num.of_Z b)%Qc.
Proof.
  intros H.
  change (Qred (inject_Z a) <= Qred (inject_Z b))%Q.
  rewrite !Qred_correct. now rewrite <- Zle_Qle.
Qed.

Lemma of_Z_lt (a b : Z) : (a < b)%Z -> (Num.of_Z a < Num.of_Z b)%Qc.
Proof.
  intros H.
  change (Qred (inject_Z a) < Qred (inject_Z b))%Q.
  rewrite !Qred_correct. now rewrite <- Zlt_Qlt.
Qed.

(** The fraction shown on the progress bar is within its range. *)
Lemma progress_fraction_ok (a n : nat) :
  (0 < a <= n)%nat ->
  progress_ok (Num.of_nat a / Num.of_nat n)%Qc = true.
Proof.
  intros [Ha Hn]. unfold progress_ok.
  assert (Hpos : (Q2Qc 0 < Num.of_nat n)%Qc).
  { apply (of_Z_lt 0). lia. }
  assert (Hne : Num.of_nat n <> Q2Qc 0).
  { intros E. rewrite E in Hpos. exact (Qclt_not_eq _ _ Hpos eq_refl). }
  assert (Hmul : (Num.of_nat a / Num.of_nat n * Num.of_nat n)%Qc =
                 Num.of_nat a).
  { rewrite Qcmult_comm. now apply Qcmult_div_r. }
  rewrite andb_true_iff, !leb_le. split.
  - apply (Qcmult_lt_0_le_reg_r _ _ (Num.of_nat n) Hpos).
    rewrite Hmul, Qcmult_0_l. apply (of_Z_le 0). lia.
  - apply (Qcmult_lt_0_le_reg_r _ _ (Num.of_nat n) Hpos).
    rewrite Hmul, Qcmult_1_l. apply of_Z_le. lia.
Qed.

Section ScanFacts.

Variable ticker_info : string -> option Info.

Lemma try_lookup_appends (st : ScanLists) (symbol : string) :
  try_lookup ticker_info st symbol =
  append4 st symbol (quote_pe ticker_info symbol)
    (quote_roe ticker_info symbol) (quote_debt ticker_info symbol)
    (quote_price ticker_info symbol).
Proof.
  unfold try_lookup, quote_pe, quote_roe, quote_debt, quote_price.
  destruct (ticker_info (symbol ++ ".NS")); reflexivity.
Qed.

(** While the loop index stays below [num_stocks] the progress call never
    raises, and the loop adds one entry per symbol to each list, in
    order. *)
Lemma scanning_loop_runs (num_stocks : nat) (symbols : list string)
  (i : nat) (st : ScanLists) :
  (i + List.length symbols <= num_stocks)%nat ->
  scanning_loop ticker_info num_stocks i symbols st =
  Some
    {| pe_ratios := pe_ratios st ++ map (quote_pe ticker_info) symbols;
       roes := roes st ++ map (quote_roe ticker_info) symbols;
       debt_ratios := debt_ratios st ++ map (quote_debt ticker_info) symbols;
       current_prices :=
         current_prices st ++ map (quote_price ticker_info) symbols;
       scanned := scanned st ++ symbols |}.
Proof.
  revert i st. induction symbols as [|s symbols IH]; intros i st Hle; simpl.
  - rewrite !app_nil_r. destruct st; reflexivity.
  - simpl in Hle. unfold scan_one.
    rewrite progress_fraction_ok by lia.
    rewrite IH by lia. rewrite try_lookup_appends. unfold append4; simpl.
    rewrite <- !app_assoc. reflexivity.
Qed.

Lemma combine_map_l {A B : Type} (f : A -> B) (l : list A) :
  combine l (map f l) = map (fun x => (x, f x)) l.
Proof. induction l; simpl; congruence. Qed.

Lemma combine_map_map {A B C : Type} (f : A -> B) (g : A -> C)
  (l : list A) :
  combine (map f l) (map g l) = map (fun x => (f x, g x)) l.
Proof. induction l; simpl; congruence. Qed.

(** The scan always completes, and its table is made row by row. *)
Lemma enrich_map (grouped_df : list Signal) (num_stocks : nat) :
  enrich ticker_info grouped_df num_stocks =
  Some (map (pick_of ticker_info) (firstn num_stocks grouped_df)).
Proof.
  unfold enrich.
  rewrite scanning_loop_runs
    by (rewrite length_map, length_firstn; simpl; lia).
  unfold add_data, fits; simpl.
  rewrite !length_map, !Nat.eqb_refl. simpl. f_equal.
  rewrite !map_map.
  rewrite (combine_map_map (fun x => to_percent (quote_roe ticker_info (SYMBOL x)))).
  rewrite (combine_map_map (fun x => quote_pe ticker_info (SYMBOL x))).
  rewrite (combine_map_map (fun x => quote_price ticker_info (SYMBOL x))).
  rewrite combine_map_l, map_map. reflexivity.
Qed.

End ScanFacts.

Lemma to_percent_zero : to_percent (Q2Qc 0) = Q2Qc 0.
Proof. apply Qc_is_canon. vm_compute. reflexivity. Qed.

(** C6: the scan keeps the first [num_stocks] rows of the ranking, all of
    them when there are fewer: it completes with a table of
    [min num_stocks (length ranking)] rows, they are those rows in rank
    order, and no symbol beyond them is looked up or given a row. *)
Theorem C6_enricher_top_n :
  forall (ticker_info : string -> option Info) (grouped_df : list Signal)
         (num_stocks : nat),
    exists out st,
      enrich ticker_info grouped_df num_stocks = Some out /\
      scanning_loop ticker_info num_stocks 0
        (map SYMBOL (firstn num_stocks grouped_df)) no_lists = Some st /\
      List.length out = Nat.min num_stocks (List.length grouped_df) /\
      map row out = firstn num_stocks grouped_df /\
      scanned st = map SYMBOL (firstn num_stocks grouped_df) /\
      (forall r, In r (skipn num_stocks grouped_df) ->
                 ~ In r (firstn num_stocks grouped_df) ->
                 ~ In r (map row out)) /\
      ((List.length grouped_df <= num_stocks)%nat -> map row out = grouped_df).
Proof.
  intros ticker_info grouped_df num_stocks.
  eexists. eexists.
  split; [apply enrich_map|].
  split; [apply scanning_loop_runs; rewrite length_map, length_firstn; lia|].
  assert (Hrow : map row (map (pick_of ticker_info)
                            (firstn num_stocks grouped_df)) =
                 firstn num_stocks grouped_df).
  { rewrite map_map. simpl. apply map_id. }
  split; [|split; [|split; [|split]]].
  - rewrite length_map. apply length_firstn.
  - exact Hrow.
  - reflexivity.
  - intros r _ Hn. rewrite Hrow. exact Hn.
  - intros Hle. rewrite Hrow. now apply firstn_all2.
Qed.

(** C7, as the script has it: the scan always completes, and every row of
    the scanned table is computed from the lookup of its own symbol
    alone, so a lookup that fails never stops the scan nor touches
    another row. A lookup that raises gives
    its row four zeros. A dictionary that lacks a key gives zero for that
    field only, and the fields it does carry are kept (the return on
    equity as a percentage). *)
Theorem C7_lookup_failure_isolated :
  forall (ticker_info : string -> option Info) (grouped_df : list Signal)
         (num_stocks : nat),
    enrich ticker_info grouped_df num_stocks =
      Some (map (pick_of ticker_info) (firstn num_stocks grouped_df)) /\
    (forall r, ticker_info (SYMBOL r ++ ".NS")%string = None ->
               all_zero (pick_of ticker_info r)) /\
    (forall r info,
        ticker_info (SYMBOL r ++ ".NS")%string = Some info ->
        let p := pick_of ticker_info r in
        (trailingPE info = None -> PE p = Q2Qc 0) /\
        (returnOnEquity info = None -> ROE_pct p = Q2Qc 0) /\
        (debtToEquity info = None -> Debt_Eq p = Q2Qc 0) /\
        (currentPrice info = None -> Price p = PyNum (Q2Qc 0)) /\
        (forall q, trailingPE info = Some (PyNum q) -> PE p = q) /\
        (forall q, returnOnEquity info = Some (PyNum q) ->
                   ROE_pct p = to_percent q) /\
        (forall q, debtToEquity info = Some (PyNum q) -> Debt_Eq p = q) /\
        (forall q, currentPrice info = Some (PyNum q) ->
                   Price p = PyNum q) /\
        (trailingPE info = Some PyNone -> PE p = Q2Qc 0) /\
        (returnOnEquity info = Some PyNone -> ROE_pct p = Q2Qc 0) /\
        (debtToEquity info = Some PyNone -> Debt_Eq p = Q2Qc 0)) /\
    (forall (other : string -> option Info) (k : nat),
        (forall j r, j <> k ->
                     nth_error (firstn num_stocks grouped_df) j = Some r ->
                     other (SYMBOL r ++ ".NS")%string =
                     ticker_info (SYMBOL r ++ ".NS")%string) ->
        exists out out',
          enrich ticker_info grouped_df num_stocks = Some out /\
          enrich other grouped_df num_stocks = Some out' /\
          forall j, j <> k -> nth_error out' j = nth_error out j).
Proof.
  intros ticker_info grouped_df num_stocks.
  split; [apply enrich_map|]. split; [|split].
  - intros r Hr. unfold all_zero, pick_of, quote_price, quote_pe, quote_roe,
      quote_debt; simpl. rewrite Hr.
    repeat split; try reflexivity. apply to_percent_zero.
  - intros r info Hinfo p. unfold p, pick_of, quote_price, quote_pe,
      quote_roe, quote_debt; simpl. rewrite Hinfo.
    repeat split.
    + intros ->. reflexivity.
    + intros ->. apply to_percent_zero.
    + intros ->. reflexivity.
    + intros ->. reflexivity.
    + intros q ->. reflexivity.
    + intros q ->. reflexivity.
    + intros q ->. reflexivity.
    + intros q ->. reflexivity.
    + intros ->. reflexivity.
    + intros ->. apply to_percent_zero.
    + intros ->. reflexivity.
  - intros other k Hsame. eexists. eexists.
    split; [apply enrich_map|]. split; [apply enrich_map|].
    intros j Hj. rewrite !nth_error_map.
    destruct (nth_error (firstn num_stocks grouped_df) j) as [r|] eqn:E;
      [|reflexivity].
    simpl. f_equal.
    unfold pick_of, quote_price, quote_pe, quote_roe, quote_debt.
    rewrite (Hsame j r Hj E). reflexivity.
Qed.

(** C7 as worded fails when the dictionary only lacks a key: the lookup
    of "NOPE" returns no P/E, and its row keeps its price, its return on
    equity and its debt/equity. *)
Lemma C7_missing_key_keeps_other_fields :
  lookup_failed sample_quotes "NOPE" /\
  exists p,
    enrich sample_quotes [signal 0 "NOPE" 30000000] 5 = Some [p] /\
    PE p = Q2Qc 0 /\ Debt_Eq p = Num.of_Z 50 /\ Price p = PyNum (Num.of_Z 100) /\
    ~ all_zero p.
Proof.
  split.
  - unfold lookup_failed. simpl. left. reflexivity.
  - eexists. split; [reflexivity|].
    split; [reflexivity|]. split; [reflexivity|]. split; [reflexivity|].
    intros [Hprice _]. simpl in Hprice. injection Hprice as H.
    discriminate H.
Qed.

(* ================================================================== *)
(** * Grouping                                                         *)
(* ================================================================== *)

Lemma slt_irrefl (a : string) : String_as_OT.lt a a -> False.
Proof. apply (StrictOrder_Irreflexive (R := String_as_OT.lt)). Qed.

Lemma slt_trans (a b c : string) :
  String_as_OT.lt a b -> String_as_OT.lt b c -> String_as_OT.lt a c.
Proof. apply (StrictOrder_Transitive (R := String_as_OT.lt)). Qed.

Ltac string_order :=
  solve [ exfalso; eauto 4 using slt_irrefl, slt_trans ].







Lemma add_to_group_keys (k : string) (v : Qc) (g : list (string * Qc))
  (k' : string) :
  In k' (map fst (add_to_group k v g)) <-> k' = k \/ In k' (map fst g).
Proof.
  induction g as [|[k0 s] g IH]; cbn [add_to_group].
  - simpl. intuition.
  - destruct (String_as_OT.compare_spec k k0) as [E|Hlt|Hgt];
      unfold String_as_OT.eq in *; subst; simpl in *; intuition.
Qed.

Lemma ascending_head_absent (k k0 : string) (s : Qc)
  (g : list (string * Qc)) :
  keys_ascending ((k0, s) :: g) -> String_as_OT.lt k k0 ->
  group_total k ((k0, s) :: g) = None.
Proof.
  intros Hs Hlt. inversion Hs as [|x l Hs' Hall]; subst.
  assert (Hg : forall g', Forall (fun y => String_as_OT.lt k0 (fst y)) g' ->
                          group_total k g' = None).
  { induction g' as [|[k1 s1] g' IH]; intros Hf; simpl; [reflexivity|].
    inversion Hf as [|y l Hy Hf']; subst. simpl in Hy.
    destruct (String.eqb_spec k k1) as [->|Hne]; [string_order|].
    now apply IH. }
  simpl. destruct (String.eqb_spec k k0) as [->|Hne]; [string_order|].
  now apply Hg.
Qed.

Lemma add_to_group_ascending (k : string) (v : Qc)
  (g : list (string * Qc)) :
  keys_ascending g -> keys_ascending (add_to_group k v g).
Proof.
  unfold keys_ascending.
  induction g as [|[k0 s] g IH]; intros Hs; cbn [add_to_group].
  - repeat constructor.
  - inversion Hs as [|x l Hs' Hall]; subst.
    destruct (String_as_OT.compare_spec k k0) as [E|Hlt|Hgt];
      unfold String_as_OT.eq in *; subst.
    + constructor; assumption.
    + constructor; [exact Hs|]. constructor; [exact Hlt|].
      eapply Forall_impl; [|exact Hall]. intros y Hy. simpl in *.
      eapply slt_trans; eauto.
    + constructor; [now apply IH|].
      apply Forall_forall. intros [k1 s1] Hin. simpl.
      assert (Hk : In k1 (map fst (add_to_group k v g))).
      { apply in_map_iff. exists (k1, s1). auto. }
      apply add_to_group_keys in Hk. destruct Hk as [->|Hk]; [exact Hgt|].
      apply in_map_iff in Hk. destruct Hk as [[k2 s2] [E Hin2]].
      simpl in E. subst k2.
      rewrite Forall_forall in Hall. exact (Hall _ Hin2).
Qed.

(** The running total of a key after one more record. *)
Lemma add_to_group_total (k : string) (v : Qc) (g : list (string * Qc))
  (k' : string) :
  keys_ascending g ->
  group_total k' (add_to_group k v g) =
  if String.eqb k' k
  then Some (nan_to_zero (group_total k g) + v)%Qc
  else group_total k' g.
Proof.
  induction g as [|[k0 s] g IH]; intros Hs; cbn [add_to_group].
  - simpl. destruct (String.eqb k' k); [|reflexivity].
    f_equal. ring.
  - destruct (String_as_OT.compare_spec k k0) as [E|Hlt|Hgt];
      unfold String_as_OT.eq in *; subst.
    + simpl. rewrite String.eqb_refl.
      destruct (String.eqb k' k0); reflexivity.
    + rewrite (ascending_head_absent k k0 s g Hs Hlt).
      cbn [group_total]. destruct (String.eqb k' k); [|reflexivity].
      simpl. f_equal. ring.
    + inversion Hs as [|x l Hs' Hall]; subst.
      cbn [group_total]. rewrite (IH Hs').
      destruct (String.eqb_spec k k0) as [->|Hne]; [string_order|].
      destruct (String.eqb_spec k' k0) as [->|Hne'].
      * destruct (String.eqb_spec k0 k) as [E|_]; [congruence | reflexivity].
      * reflexivity.
Qed.

Lemma group_total_keys (k : string) (g : list (string * Qc)) :
  In k (map fst g) <-> group_total k g <> None.
Proof.
  induction g as [|[k0 s] g IH]; simpl; [intuition|].
  destruct (String.eqb_spec k k0) as [->|Hne].
  - split; [discriminate | auto].
  - rewrite <- IH. intuition congruence.
Qed.

Lemma group_total_In (k : string) (s : Qc) (g : list (string * Qc)) :
  keys_ascending g -> In (k, s) g -> group_total k g = Some s.
Proof.
  induction g as [|[k0 s0] g IH]; intros Hs Hin; [contradiction|].
  inversion Hs as [|x l Hs' Hall]; subst. simpl.
  destruct Hin as [E|Hin].
  - injection E as -> ->. now rewrite String.eqb_refl.
  - destruct (String.eqb_spec k k0) as [->|Hne]; [|now apply IH].
    rewrite Forall_forall in Hall. specialize (Hall _ Hin). simpl in Hall.
    string_order.
Qed.

Lemma keys_ascending_NoDup (g : list (string * Qc)) :
  keys_ascending g -> NoDup (map fst g).
Proof.
  induction g as [|[k0 s0] g IH]; intros Hs; simpl; constructor;
    inversion Hs as [|x l Hs' Hall]; subst.
  - intros Hin. apply in_map_iff in Hin. destruct Hin as [[k1 s1] [E Hin]].
    simpl in E. subst k1. rewrite Forall_forall in Hall.
    specialize (Hall _ Hin). simpl in Hall. string_order.
  - now apply IH.
Qed.

(** What the groups hold after a pass over the rows: the keys are kept in
    ascending order, a key has a group exactly when it had one or a row
    carries it, and its total grew by what its rows contribute. *)
Lemma fold_group_step (rows : list (cell * option Qc))
  (g : list (string * Qc)) :
  keys_ascending g ->
  let g' := fold_left group_step rows g in
  keys_ascending g' /\
  (forall k, In k (map fst g') <->
             In k (map fst g) \/ In (Some k) (map fst rows)) /\
  (forall k, nan_to_zero (group_total k g') =
             (nan_to_zero (group_total k g) +
              Num.sum (group_values k rows))%Qc).
Proof.
  revert g. induction rows as [|[c v] rows IH]; intros g Hs; simpl.
  - split; [exact Hs|]. split; [intuition|].
    intros k. unfold group_values; simpl. ring.
  - unfold group_step at 2 4 6. simpl fst. simpl snd.
    destruct c as [k0|].
    + destruct (IH (add_to_group k0 (nan_to_zero v) g)
                  (add_to_group_ascending _ _ _ Hs)) as [H1 [H2 H3]].
      split; [exact H1|]. split.
      * intros k. rewrite H2, add_to_group_keys.
        split; [intros [[->|H]|H] | intros [H|[E|H]]]; auto.
        injection E as ->. auto.
      * intros k. rewrite H3, add_to_group_total by exact Hs.
        unfold group_values. simpl filter.
        destruct (String.eqb_spec k k0) as [->|Hne]; simpl; ring.
    + destruct (IH g Hs) as [H1 [H2 H3]].
      split; [exact H1|]. split.
      * intros k. rewrite H2.
        split; [intros [H|H] | intros [H|[E|H]]]; auto. discriminate E.
      * intros k. rewrite H3. unfold group_values. simpl. reflexivity.
Qed.

Lemma groupby_sum_spec (rows : list (cell * option Qc)) :
  keys_ascending (groupby_sum rows) /\
  (forall k, In k (map fst (groupby_sum rows)) <->
             In (Some k) (map fst rows)) /\
  (forall k s, In (k, s) (groupby_sum rows) ->
               s = Num.sum (group_values k rows)).
Proof.
  assert (Hnil : keys_ascending []) by constructor.
  destruct (fold_group_step rows [] Hnil) as [H1 [H2 H3]].
  fold (groupby_sum rows) in H1, H2, H3.
  split; [exact H1|]. split.
  - intros k. rewrite H2. simpl. intuition.
  - intros k s Hin. specialize (H3 k).
    rewrite (group_total_In k s _ H1 Hin) in H3. simpl in H3.
    rewrite H3. ring.
Qed.

Lemma to_signals_In (i : nat) (g : list (string * Qc)) (sig : Signal) :
  In sig (to_signals i g) ->
  In (SYMBOL sig, Value sig) g /\
  Value_Cr sig = Num.round2 (Value sig / Num.crore).
Proof.
  revert i. induction g as [|[k s] g IH]; intros i; simpl; [contradiction|].
  intros [<-|Hin]; simpl; [auto|].
  destruct (IH _ Hin). auto.
Qed.

Lemma to_signals_symbols (i : nat) (g : list (string * Qc)) :
  map SYMBOL (to_signals i g) = map fst g.
Proof.
  revert i. induction g as [|[k s] g IH]; intros i; simpl; [reflexivity|].
  now rewrite IH.
Qed.

Lemma to_signals_idx (i : nat) (g : list (string * Qc)) :
  map idx (to_signals i g) = seq i (List.length g).
Proof.
  revert i. induction g as [|[k s] g IH]; intros i; simpl; [reflexivity|].
  now rewrite IH.
Qed.


(* ================================================================== *)
(** * Row order                                                        *)
(* ================================================================== *)





(* ================================================================== *)
(** * Ranking                                                          *)
(* ================================================================== *)

Section Iloc.

Context {A : Type}.

Lemma iloc_app (l : list A) (p q : list nat) :
  iloc l (p ++ q) = iloc l p ++ iloc l q.
Proof. unfold iloc. apply flat_map_app. Qed.

Lemma iloc_cons (l : list A) (i : nat) (p : list nat) :
  iloc l (i :: p) = iloc l [i] ++ iloc l p.
Proof. unfold iloc; simpl. now rewrite app_nil_r. Qed.

Lemma iloc_one (l : list A) (i : nat) :
  iloc l [i] = match nth_error l i with Some r => [r] | None => [] end.
Proof. unfold iloc; simpl. now rewrite app_nil_r. Qed.

Lemma iloc_rev (l : list A) (p : list nat) :
  iloc l (rev p) = rev (iloc l p).
Proof.
  induction p as [|i p IH]; [reflexivity|].
  rewrite (iloc_cons l i p), rev_app_distr, <- IH.
  change (rev (i :: p)) with (rev p ++ [i]).
  rewrite iloc_app. f_equal.
  unfold iloc; simpl. destruct (nth_error l i); reflexivity.
Qed.

Lemma iloc_Permutation (l : list A) (p q : list nat) :
  Permutation p q -> Permutation (iloc l p) (iloc l q).
Proof. intros Hp. unfold iloc. now apply Permutation_flat_map. Qed.

Lemma iloc_seq (pre l : list A) :
  iloc (pre ++ l) (seq (List.length pre) (List.length l)) = l.
Proof.
  revert pre. induction l as [|x l IH]; intros pre; [reflexivity|].
  cbn [seq List.length]. rewrite iloc_cons.
  assert (E : iloc (pre ++ x :: l) [List.length pre] = [x]).
  { unfold iloc; simpl. rewrite nth_error_app2 by lia.
    rewrite Nat.sub_diag. reflexivity. }
  rewrite E. simpl. f_equal.
  specialize (IH (pre ++ [x])).
  rewrite <- app_assoc, length_app in IH. simpl in IH.
  rewrite Nat.add_1_r in IH. exact IH.
Qed.

Lemma iloc_all (l : list A) : iloc l (seq 0 (List.length l)) = l.
Proof. exact (iloc_seq [] l). Qed.

Lemma iloc_in_range (d : A) (l : list A) (p : list nat) :
  Forall (fun i => (i < List.length l)%nat) p ->
  iloc l p = map (fun i => nth i l d) p.
Proof.
  induction 1 as [|i p Hi Hp IH]; [reflexivity|].
  rewrite iloc_cons, IH. simpl. f_equal. unfold iloc; simpl.
  rewrite (nth_error_nth' l d Hi). reflexivity.
Qed.

Lemma iloc_length (l : list A) (p : list nat) :
  Forall (fun i => (i < List.length l)%nat) p ->
  List.length (iloc l p) = List.length p.
Proof.
  destruct l as [|d l].
  - intros H. destruct H as [|i p Hi _]; [reflexivity|]. simpl in Hi. lia.
  - intros H. rewrite (iloc_in_range d) by exact H. apply length_map.
Qed.

End Iloc.

(** Selecting by selected positions is selecting twice. *)
Lemma iloc_compose {A : Type} (l : list A) (q a : list nat) :
  Forall (fun i => (i < List.length l)%nat) q ->
  iloc l (iloc q a) = iloc (iloc l q) a.
Proof.
  intros Hq. induction a as [|j a IH]; [reflexivity|].
  rewrite (iloc_cons q), (iloc_cons (iloc l q)), iloc_app, IH. f_equal.
  rewrite (iloc_one q), (iloc_one (iloc l q)).
  destruct (nth_error q j) as [i|] eqn:E.
  - assert (Hi : (i < List.length l)%nat).
    { rewrite Forall_forall in Hq. apply Hq. eapply nth_error_In; eauto. }
    destruct l as [|d l]; [simpl in Hi; lia|].
    rewrite (iloc_in_range d (d :: l) q Hq).
    rewrite nth_error_map, E, iloc_one, (nth_error_nth' _ d Hi).
    reflexivity.
  - apply nth_error_None in E.
    assert (E' : nth_error (iloc l q) j = None).
    { apply nth_error_None. now rewrite iloc_length. }
    rewrite E'. reflexivity.
Qed.

Lemma iloc_map {A B : Type} (f : A -> B) (l : list A) (p : list nat) :
  map f (iloc l p) = iloc (map f l) p.
Proof.
  induction p as [|i p IH]; [reflexivity|].
  rewrite (iloc_cons l), (iloc_cons (map f l)), map_app, IH. f_equal. unfold iloc; simpl.
  rewrite nth_error_map. destruct (nth_error l i); reflexivity.
Qed.

Lemma seq_in_range (n : nat) : Forall (fun i => (i < n)%nat) (seq 0 n).
Proof. apply Forall_forall. intros i Hi. apply in_seq in Hi. lia. Qed.

Lemma Permutation_in_range (p : list nat) (n : nat) :
  Permutation p (seq 0 n) -> Forall (fun i => (i < n)%nat) p.
Proof.
  intros Hp. apply Forall_forall. intros i Hi.
  apply (Permutation_in _ Hp) in Hi. apply in_seq in Hi. lia.
Qed.

Lemma StronglySorted_snoc {A : Type} (R : A -> A -> Prop) (l : list A)
  (x : A) :
  StronglySorted R l -> Forall (fun y => R y x) l ->
  StronglySorted R (l ++ [x]).
Proof.
  induction 1 as [|y l Hs IH Hy]; intros Hall; simpl.
  - repeat constructor.
  - inversion Hall as [|z m Hz Hall']; subst.
    constructor; [now apply IH|].
    apply Forall_app. split; [exact Hy | now constructor].
Qed.

Lemma StronglySorted_rev {A : Type} (R : A -> A -> Prop) (l : list A) :
  StronglySorted R l -> StronglySorted (fun x y => R y x) (rev l).
Proof.
  induction 1 as [|x l Hs IH Hx]; simpl; [constructor|].
  apply StronglySorted_snoc; [exact IH|].
  apply Forall_forall. intros y Hy. apply in_rev in Hy.
  rewrite Forall_forall in Hx. now apply Hx.
Qed.

Lemma StronglySorted_map {A B : Type} (f : A -> B) (R : B -> B -> Prop)
  (l : list A) :
  StronglySorted R (map f l) <-> StronglySorted (fun x y => R (f x) (f y)) l.
Proof.
  induction l as [|x l IH]; simpl.
  - split; constructor.
  - split; intros H; inversion H as [|y m Hs Hall]; subst; constructor.
    + now apply IH.
    + rewrite Forall_forall in *. intros y Hy. apply Hall. now apply in_map.
    + now apply IH.
    + rewrite Forall_forall in *. intros y Hy.
      apply in_map_iff in Hy. destruct Hy as [z [<- Hz]]. now apply Hall.
Qed.

Section SortValues.

Variable argsort : list Qc -> list nat.
Hypothesis argsort_ok : argsort_spec argsort.

Lemma nargsort_descending_Permutation (keys : list Qc) :
  Permutation (nargsort_descending argsort keys)
              (seq 0 (List.length keys)).
Proof.
  unfold nargsort_descending.
  destruct (argsort_ok (rev keys)) as [Hp _].
  rewrite length_rev in Hp.
  rewrite <- Permutation_rev.
  transitivity (iloc (rev (seq 0 (List.length keys)))
                  (seq 0 (List.length keys))).
  - now apply iloc_Permutation.
  - replace (List.length keys)
      with (List.length (rev (seq 0 (List.length keys)))) at 2
      by now rewrite length_rev, length_seq.
    rewrite iloc_all. symmetry. apply Permutation_rev.
Qed.

(** The ranking rearranges [grouped_df]. *)
Lemma sort_values_Permutation (g : list Signal) :
  Permutation (sort_values argsort g) g.
Proof.
  unfold sort_values.
  transitivity (iloc g (seq 0 (List.length g))).
  - apply iloc_Permutation.
    rewrite <- (length_map Value_Cr g).
    apply nargsort_descending_Permutation.
  - now rewrite iloc_all.
Qed.

(** The keys of the ranking, read in order. *)
Lemma sort_values_keys (g : list Signal) :
  map Value_Cr (sort_values argsort g) =
  rev (map (fun i => nth i (rev (map Value_Cr g)) (Q2Qc 0))
           (argsort (rev (map Value_Cr g)))).
Proof.
  unfold sort_values, nargsort_descending.
  set (keys := map Value_Cr g).
  destruct (argsort_ok (rev keys)) as [Hp _].
  rewrite iloc_map. fold keys. rewrite iloc_rev. f_equal.
  rewrite iloc_compose.
  - rewrite iloc_rev, iloc_all.
    apply iloc_in_range. now apply Permutation_in_range.
  - apply Forall_forall. intros i Hi. apply in_rev, in_seq in Hi. lia.
Qed.

Lemma sort_values_descending (g : list Signal) :
  descending (sort_values argsort g).
Proof.
  unfold descending.
  apply (StronglySorted_map Value_Cr (fun x y => (y <= x)%Qc)).
  rewrite sort_values_keys.
  apply (StronglySorted_rev Qcle).
  now destruct (argsort_ok (rev (map Value_Cr g))).
Qed.

End SortValues.

(* ================================================================== *)
(** * Two sort kinds that meet the argsort contract                    *)
(* ================================================================== *)

Section InsertionSort.

Context {A : Type}.
Variable leb : A -> A -> bool.
Variable R : A -> A -> Prop.
Hypothesis leb_R : forall a b, leb a b = true -> R a b.
Hypothesis not_leb_R : forall a b, leb a b = false -> R b a.
Hypothesis R_trans : forall a b c, R a b -> R b c -> R a c.

Lemma insert_by_Permutation (x : A) (l : list A) :
  Permutation (insert_by leb x l) (x :: l).
Proof.
  induction l as [|y l IH]; simpl; [reflexivity|].
  destruct (leb x y); [reflexivity|].
  rewrite IH. apply perm_swap.
Qed.

Lemma sort_by_Permutation (l : list A) : Permutation (sort_by leb l) l.
Proof.
  induction l as [|x l IH]; simpl; [reflexivity|].
  rewrite insert_by_Permutation. now constructor.
Qed.

Lemma insert_by_sorted (x : A) (l : list A) :
  StronglySorted R l -> StronglySorted R (insert_by leb x l).
Proof.
  induction 1 as [|y l Hs IH Hy]; simpl; [repeat constructor|].
  destruct (leb x y) eqn:E.
  - constructor; [now constructor|].
    constructor; [now apply leb_R|].
    eapply Forall_impl; [|exact Hy]. intros z Hz.
    eapply R_trans; [apply leb_R; exact E | exact Hz].
  - constructor; [exact IH|].
    apply Forall_forall. intros z Hz.
    apply (Permutation_in _ (insert_by_Permutation x l)) in Hz.
    destruct Hz as [<-|Hz]; [now apply not_leb_R|].
    rewrite Forall_forall in Hy. now apply Hy.
Qed.

Lemma sort_by_sorted (l : list A) : StronglySorted R (sort_by leb l).
Proof.
  induction l as [|x l IH]; simpl; [constructor|].
  now apply insert_by_sorted.
Qed.

End InsertionSort.

Lemma combine_seq_snd {A : Type} (l : list A) (s : nat) :
  map snd (combine l (seq s (List.length l))) = seq s (List.length l).
Proof.
  revert s. induction l as [|x l IH]; intros s; simpl; [reflexivity|].
  now rewrite IH.
Qed.

Lemma combine_seq_nth (keys : list Qc) (s : nat) (k : Qc) (i : nat) :
  In (k, i) (combine keys (seq s (List.length keys))) ->
  (s <= i)%nat /\ nth (i - s) keys (Q2Qc 0) = k.
Proof.
  revert s. induction keys as [|k0 keys IH]; intros s; simpl; [contradiction|].
  intros [E|Hin].
  - injection E as -> ->. rewrite Nat.sub_diag. auto.
  - destruct (IH _ Hin) as [Hle Hn]. split; [lia|].
    replace (i - s)%nat with (S (i - S s)) by lia. exact Hn.
Qed.

(** An insertion sort of the (key, position) pairs meets the contract as
    soon as its order refines the order of the keys. *)
Lemma argsort_by_spec (leb : Qc * nat -> Qc * nat -> bool) :
  (forall a b, leb a b = true -> (fst a <= fst b)%Qc) ->
  (forall a b, leb a b = false -> (fst b <= fst a)%Qc) ->
  argsort_spec (argsort_by leb).
Proof.
  intros H1 H2 keys. unfold argsort_by.
  set (pairs := combine keys (seq 0 (List.length keys))).
  assert (Hperm : Permutation (sort_by leb pairs) pairs)
    by apply sort_by_Permutation.
  split.
  - rewrite <- (combine_seq_snd keys 0). fold pairs.
    now apply Permutation_map.
  - rewrite map_map.
    assert (E : map (fun x => nth (snd x) keys (Q2Qc 0)) (sort_by leb pairs) =
                map fst (sort_by leb pairs)).
    { apply map_ext_in. intros [k i] Hin. simpl.
      apply (Permutation_in _ Hperm) in Hin.
      apply combine_seq_nth in Hin. destruct Hin as [_ Hn].
      now rewrite Nat.sub_0_r in Hn. }
    rewrite E. apply StronglySorted_map.
    apply (sort_by_sorted leb (fun a b => (fst a <= fst b)%Qc)); auto.
    intros a b c. apply Qcle_trans.
Qed.

Lemma argsort_keep_spec : argsort_spec argsort_keep.
Proof.
  apply argsort_by_spec; intros [k1 i1] [k2 i2]; unfold leb_keep; simpl.
  - rewrite orb_true_iff, andb_true_iff, ltb_lt, leb_le.
    intros [H|[H _]]; [now apply Qclt_le_weak | exact H].
  - intros H. apply orb_false_iff in H. destruct H as [H _].
    now apply not_ltb_le.
Qed.





(** The same two groups under a sort kind that keeps equal keys in order:
    the reversals around the argsort do not disturb them. *)
Lemma keeping_kind_keeps_ties :
  map SYMBOL (sort_values argsort_keep tied_groups) = ["AAA"; "BBB"] /\
  ties_in_grouping_order (sort_values argsort_keep tied_groups).
Proof.
  split; [reflexivity|].
  change (sort_values argsort_keep tied_groups)
    with [signal 0 "AAA" 10000000; signal 1 "BBB" 10000000].
  constructor; [repeat constructor|].
  constructor; [|constructor]. intros _. simpl. lia.
Qed.

Lemma C8_gate_pure_witness :
  NoDup (map label [scenario4; unavailable_pick]) /\
  In unavailable_pick [scenario4; unavailable_pick] /\
  (PE unavailable_pick <= Q2Qc 0)%Qc /\
  In unavailable_pick
     (rejected (apply_filters
                  (with_pe_limit (Num.of_Z 10) (sliders 60 10 (Num.of_Z 2)))
                  [scenario4; unavailable_pick])) /\
  In unavailable_pick
     (rejected (apply_filters
                  (with_pe_limit (Num.of_Z 100) (sliders 60 10 (Num.of_Z 2)))
                  [scenario4; unavailable_pick])).
Proof.
  assert (Hnd : NoDup (map label [scenario4; unavailable_pick])).
  { constructor; [|constructor; [|constructor]].
    - intros [H|H]; [discriminate H | exact H].
    - intros H. exact H. }
  assert (Hin : In unavailable_pick [scenario4; unavailable_pick])
    by (right; left; reflexivity).
  assert (Hle : (PE unavailable_pick <= Q2Qc 0)%Qc) by apply Qcle_refl.
  destruct (C8_gate_pure (sliders 60 10 (Num.of_Z 2))
              (sliders 60 10 (Num.of_Z 2)) [scenario4; unavailable_pick])
    as [_ [_ [_ [_ Hrej]]]].
  destruct (Hrej unavailable_pick (Num.of_Z 10) (Num.of_Z 100) Hnd Hin Hle)
    as [H10 [H100 _]].
  repeat split; assumption.
Defined.

(* ================================================================== *)
(** * The scanned table has distinct row labels                        *)
(* ================================================================== *)

Lemma NoDup_firstn {A : Type} (n : nat) (l : list A) :
  NoDup l -> NoDup (firstn n l).
Proof.
  intros H. rewrite <- (firstn_skipn n l) in H.
  now apply NoDup_app_remove_r in H.
Qed.

(** Whatever the upload and the quote service, the rows handed to the
    slider filters carry distinct labels, which is what the statements
    about the rejected view assume. *)
Lemma scanned_labels_distinct (to_numeric : string -> option Qc)
  (argsort : list Qc -> list nat) (ticker_info : string -> option Info)
  (df : DataFrame) (ranking : list Signal) (num_stocks : nat) :
  argsort_spec argsort ->
  load_and_rank to_numeric argsort df = inr ranking ->
  exists picks,
    enrich ticker_info ranking num_stocks = Some picks /\
    NoDup (map label picks).
Proof.
  intros Hspec Hrun.
  assert (Hr : NoDup (map idx ranking)).
  { unfold load_and_rank in Hrun.
    destruct (negb _); [discriminate|].
    destruct (person_col _); [|discriminate].
    destruct (type_col _); [|discriminate].
    destruct (val_col _); [|discriminate].
    destruct (mode_col _); [|discriminate].
    destruct (position _ _); [|discriminate].
    injection Hrun as <-.
    eapply Permutation_NoDup.
    - apply Permutation_map. symmetry.
      apply sort_values_Permutation. exact Hspec.
    - unfold grouped. rewrite to_signals_idx. apply seq_NoDup. }
  eexists. split; [apply enrich_map|].
  rewrite map_map. unfold label. simpl.
  rewrite <- firstn_map. now apply NoDup_firstn.
Qed.

(* ================================================================== *)
(** * More on the header and the column detection                      *)
(* ================================================================== *)





Lemma lower_char_idempotent (c : ascii) :
  Text.lower_char (Text.lower_char c) = Text.lower_char c.
Proof.
  destruct c as [b0 b1 b2 b3 b4 b5 b6 b7].
  destruct b0, b1, b2, b3, b4, b5, b6, b7; reflexivity.
Qed.

Lemma lower_idempotent (s : string) :
  Text.lower (Text.lower s) = Text.lower s.
Proof.
  induction s as [|c s IH]; simpl; [reflexivity|].
  now rewrite lower_char_idempotent, IH.
Qed.

Lemma forallb_pointwise {A : Type} (f g : A -> bool) (l : list A) :
  (forall x, f x = g x) -> forallb f l = forallb g l.
Proof.
  intros H. induction l as [|x l IH]; simpl; [reflexivity|].
  now rewrite H, IH.
Qed.

Lemma find_pointwise {A : Type} (f g : A -> bool) (l : list A) :
  (forall x, f x = g x) -> find f l = find g l.
Proof.
  intros H. induction l as [|x l IH]; simpl; [reflexivity|].
  now rewrite H, IH.
Qed.

Lemma col_matches_lower (keywords : list string) (c : string) :
  col_matches keywords (Text.lower c) = col_matches keywords c /\
  col_matches (map Text.lower keywords) c = col_matches keywords c.
Proof.
  unfold col_matches. split.
  - apply forallb_pointwise. intros k. now rewrite lower_idempotent.
  - induction keywords as [|k keywords IH]; simpl; [reflexivity|].
    now rewrite lower_idempotent, IH.
Qed.

Lemma find_map {A B : Type} (f : B -> bool) (g : A -> B) (l : list A) :
  find f (map g l) = option_map g (find (fun x => f (g x)) l).
Proof.
  induction l as [|x l IH]; simpl; [reflexivity|].
  destruct (f (g x)); [reflexivity | exact IH].
Qed.

(** X2: the detection does not depend on letter case: a header put in
    lower case binds the column at the same place, and keywords in lower
    case find the same column. *)
Theorem get_col_name_ignores_case :
  forall (cols keywords : list string),
    get_col_name (map Text.lower cols) keywords =
      option_map Text.lower (get_col_name cols keywords) /\
    get_col_name cols (map Text.lower keywords) = get_col_name cols keywords.
Proof.
  intros cols keywords. unfold get_col_name. split.
  - rewrite find_map. f_equal. apply find_pointwise. intros c.
    apply col_matches_lower.
  - apply find_pointwise. intros c. apply col_matches_lower.
Qed.

(* ================================================================== *)
(** * More on the row filters and on how stage 1 ends                  *)
(* ================================================================== *)

Lemma filter_andb {A : Type} (f g : A -> bool) (l : list A) :
  filter f (filter g l) = filter (fun x => g x && f x) l.
Proof.
  induction l as [|x l IH]; simpl; [reflexivity|].
  destruct (g x); simpl; [destruct (f x)|]; now rewrite IH.
Qed.

Lemma classify_filter (cols : list string) (person type mode : string)
  (rows : list (list cell)) :
  classify cols person type mode rows =
  filter (fun r => is_promoter cols person r && is_buy cols type r &&
                   is_market cols mode r) rows.
Proof.
  unfold classify. rewrite !filter_andb. apply filter_ext.
  intros r. now rewrite andb_assoc.
Qed.

Lemma classify_In (cols : list string) (person type mode : string)
  (rows : list (list cell)) (r : list cell) :
  In r (classify cols person type mode rows) <->
  In r rows /\
  mentions "Promoter" (field cols person r) /\
  (mentions "Buy" (field cols type r) \/
   mentions "Acqui" (field cols type r)) /\
  begins_with "Market P" (field cols mode r).
Proof.
  unfold classify. rewrite !filter_In. unfold is_promoter, is_buy, is_market.
  rewrite orb_true_iff, !str_contains_mentions, str_startswith_begins.
  tauto.
Qed.

(** X3: the three filters act row by row: filtering a table made of two
    parts is filtering each part, filtering again changes nothing, and
    the order in which the three masks are applied does not matter. *)
Theorem classify_composes :
  forall (cols : list string) (person type mode : string)
         (rows rows' : list (list cell)),
    classify cols person type mode (rows ++ rows') =
      classify cols person type mode rows ++
      classify cols person type mode rows' /\
    classify cols person type mode (classify cols person type mode rows) =
      classify cols person type mode rows /\
    classify cols person type mode rows =
      filter (is_promoter cols person)
        (filter (is_buy cols type) (filter (is_market cols mode) rows)).
Proof.
  intros cols person type mode rows rows'. split; [|split].
  - rewrite !classify_filter. apply filter_app.
  - rewrite !classify_filter, filter_andb. apply filter_ext.
    intros r. destruct (is_promoter cols person r), (is_buy cols type r),
      (is_market cols mode r); reflexivity.
  - rewrite classify_filter, !filter_andb. apply filter_ext.
    intros r. destruct (is_promoter cols person r), (is_buy cols type r),
      (is_market cols mode r); reflexivity.
Qed.

Lemma all_bound_Some (cols : list string) :
  all_bound (column_mapping cols) = true ->
  exists person type val mode,
    person_col (column_mapping cols) = Some person /\
    type_col (column_mapping cols) = Some type /\
    val_col (column_mapping cols) = Some val /\
    mode_col (column_mapping cols) = Some mode.
Proof.
  intros H. apply all_bound_iff in H. destruct H as [Hp [Ht [Hv Hm]]].
  destruct (person_col _) as [p|]; [|congruence].
  destruct (type_col _) as [t|]; [|congruence].
  destruct (val_col _) as [v|]; [|congruence].
  destruct (mode_col _) as [m|]; [|congruence].
  exists p, t, v, m. auto.
Qed.

(** What a successful stage 1 returns. *)
Lemma load_and_rank_ranked (to_numeric : string -> option Qc)
  (argsort : list Qc -> list nat) (df : DataFrame) :
  let cols := normalize_columns (columns df) in
  all_bound (column_mapping cols) = true ->
  In "SYMBOL" cols ->
  exists val,
    val_col (column_mapping cols) = Some val /\
    load_and_rank to_numeric argsort df =
    inr (sort_values argsort
           (grouped to_numeric cols val (qualifying_rows df))).
Proof.
  intros cols Hb Hs.
  destruct (all_bound_Some cols Hb) as [p [t [v [m [Ep [Et [Ev Em]]]]]]].
  exists v. split; [exact Ev|].
  unfold load_and_rank, qualifying_rows. fold cols.
  rewrite Hb, Ep, Et, Ev, Em. cbn [negb].
  destruct (position "SYMBOL" cols) eqn:E; [reflexivity|].
  apply position_In in E. contradiction.
Qed.


(* ================================================================== *)
(** * More on the grouping                                             *)
(* ================================================================== *)


Lemma to_signals_length (i : nat) (g : list (string * Qc)) :
  List.length (to_signals i g) = List.length g.
Proof.
  rewrite <- (length_map idx), to_signals_idx. apply length_seq.
Qed.

(** X5: [grouped_df] is labelled 0, 1, 2, ... in row order and lists the
    companies in strictly ascending order of their symbol. *)
Theorem grouped_labels_and_order :
  forall (to_numeric : string -> option Qc) (cols : list string)
         (val : string) (final_df : list (list cell)),
    let g := grouped to_numeric cols val final_df in
    map idx g = seq 0 (List.length g) /\
    StronglySorted String_as_OT.lt (map SYMBOL g).
Proof.
  intros to_numeric cols val final_df g. unfold g, grouped. split.
  - now rewrite to_signals_idx, to_signals_length.
  - rewrite to_signals_symbols. apply StronglySorted_map.
    apply groupby_sum_spec.
Qed.




Lemma symbols_of_In (k : string) (cs : list cell) :
  In k (symbols_of cs) <-> In (Some k) cs.
Proof.
  unfold symbols_of. rewrite in_flat_map. split.
  - intros [[k'|] [Hin Hk]]; simpl in Hk; [|contradiction].
    destruct Hk as [->|[]]. exact Hin.
  - intros Hin. exists (Some k). simpl. auto.
Qed.

Lemma symbols_of_length (cs : list cell) :
  (List.length (symbols_of cs) <= List.length cs)%nat.
Proof.
  induction cs as [|[k|] cs IH]; simpl; lia.
Qed.

Lemma nodup_length_le {A : Type} (dec : forall x y : A, {x = y} + {x <> y})
  (l : list A) :
  (List.length (nodup dec l) <= List.length l)%nat.
Proof.
  induction l as [|x l IH]; simpl; [lia|].
  destruct (in_dec dec x l); simpl; lia.
Qed.

(** X7: the number of companies found is the number of distinct symbols
    carried by the filtered rows, at most the number of those rows; none
    when no filtered row carries a symbol. *)
Theorem found_count_distinct_symbols :
  forall (to_numeric : string -> option Qc) (cols : list string)
         (val : string) (final_df : list (list cell)),
    let symbols := symbols_of (map (field cols "SYMBOL") final_df) in
    let g := grouped to_numeric cols val final_df in
    List.length g = List.length (nodup string_dec symbols) /\
    (List.length g <= List.length final_df)%nat /\
    (symbols = [] -> g = []).
Proof.
  intros to_numeric cols val final_df symbols g.
  destruct (groupby_sum_spec (symbol_values to_numeric cols val final_df))
    as [H1 [H2 _]].
  assert (Hlen : List.length g = List.length (nodup string_dec symbols)).
  { unfold g, grouped. rewrite to_signals_length, <- (length_map fst).
    apply Permutation_length. apply NoDup_Permutation.
    - now apply keys_ascending_NoDup.
    - apply NoDup_nodup.
    - intros k. rewrite H2, nodup_In. unfold symbols.
      rewrite symbols_of_In. unfold symbol_values. rewrite map_map.
      simpl. reflexivity. }
  split; [exact Hlen|]. split.
  - rewrite Hlen.
    eapply Nat.le_trans; [apply nodup_length_le|].
    eapply Nat.le_trans; [apply symbols_of_length|].
    now rewrite length_map.
  - intros E. rewrite E in Hlen. simpl in Hlen.
    destruct g; [reflexivity | discriminate].
Qed.

(* ================================================================== *)
(** * Rounding to two decimals                                         *)
(* ================================================================== *)

Lemma this_minus (x y : Qc) : (this (x - y)%Qc == this x - this y)%Q.
Proof.
  unfold Qcminus, Qcplus, Qcopp, Q2Qc. cbn [this].
  rewrite !Qred_correct. reflexivity.
Qed.


Lemma this_of_Z (z : Z) : (this (Num.of_Z z) == inject_Z z)%Q.
Proof. unfold Num.of_Z, Q2Qc. cbn [this]. apply Qred_correct. Qed.

Lemma this_Q2Qc (q : Q) : (this (Q2Qc q) == q)%Q.
Proof. unfold Q2Qc. cbn [this]. apply Qred_correct. Qed.

Lemma of_Z_le_inv (a b : Z) : (Num.of_Z a <= Num.of_Z b)%Qc -> (a <= b)%Z.
Proof.
  unfold Qcle. rewrite !this_of_Z, <- Zle_Qle. auto.
Qed.


(** Rounding to the nearest integer keeps the order. *)
Lemma rint_monotone (x y : Qc) :
  (x <= y)%Qc -> (Num.rint x <= Num.rint y)%Z.
Proof.
  unfold Qcle. intros Hxy.
  pose proof (Qfloor_resp_le _ _ Hxy) as Hf.
  pose proof (Qfloor_le (this x)) as Hxlo.
  pose proof (Qlt_floor (this x)) as Hxhi.
  pose proof (Qfloor_le (this y)) as Hylo.
  pose proof (Qlt_floor (this y)) as Hyhi.
  rewrite inject_Z_plus in Hxhi, Hyhi.
  change (inject_Z 1) with 1%Q in Hxhi, Hyhi.
  unfold Num.rint, Qccompare.
  set (fx := Qfloor (this x)) in *. set (fy := Qfloor (this y)) in *.
  destruct (Z.eq_dec fx fy) as [E|E].
  - rewrite <- E in *. clear E Hf.
    destruct (Qcompare_spec (this (x - Num.of_Z fx)%Qc) (this (Q2Qc (1 # 2))))
      as [Ex|Ex|Ex]; rewrite this_minus, this_of_Z, this_Q2Qc in Ex;
    destruct (Qcompare_spec (this (y - Num.of_Z fx)%Qc) (this (Q2Qc (1 # 2))))
      as [Ey|Ey|Ey]; rewrite this_minus, this_of_Z, this_Q2Qc in Ey;
    destruct (Z.even fx); first [lia | exfalso; lra].
  - assert (Hlt : (fx + 1 <= fy)%Z) by lia.
    destruct (Qcompare (this (x - Num.of_Z fx)%Qc) (this (Q2Qc (1 # 2))));
    destruct (Qcompare (this (y - Num.of_Z fy)%Qc) (this (Q2Qc (1 # 2))));
    destruct (Z.even fx); destruct (Z.even fy); lia.
Qed.

Lemma hundredth : (/ Num.of_Z 100)%Qc = Q2Qc (1 # 100).
Proof. apply Qc_is_canon. reflexivity. Qed.

Lemma round2_monotone (x y : Qc) :
  (x <= y)%Qc -> (Num.round2 x <= Num.round2 y)%Qc.
Proof.
  intros Hxy. unfold Num.round2, Qcdiv. rewrite hundredth.
  apply Qcmult_le_compat_r; [|now vm_compute].
  apply of_Z_le, rint_monotone.
  apply Qcmult_le_compat_r; [exact Hxy | now vm_compute].
Qed.




(* ================================================================== *)
(** * More on the ranking                                              *)
(* ================================================================== *)

Lemma iloc_In {A : Type} (l : list A) (p : list nat) (x : A) :
  In x (iloc l p) -> In x l.
Proof.
  unfold iloc. rewrite in_flat_map. intros [i [_ Hx]].
  destruct (nth_error l i) as [y|] eqn:E; [|contradiction].
  destruct Hx as [<-|[]]. eapply nth_error_In; eauto.
Qed.

Lemma grouped_In (to_numeric : string -> option Qc) (cols : list string)
  (val : string) (final_df : list (list cell)) (sig : Signal) :
  In sig (grouped to_numeric cols val final_df) ->
  Value_Cr sig = Num.round2 (Value sig / Num.crore).
Proof. unfold grouped. intros H. now apply to_signals_In in H. Qed.

Lemma StronglySorted_app_cross {A : Type} (R : A -> A -> Prop)
  (l1 l2 : list A) :
  StronglySorted R (l1 ++ l2) ->
  forall x y, In x l1 -> In y l2 -> R x y.
Proof.
  induction l1 as [|a l1 IH]; simpl; intros Hs x y Hx Hy; [contradiction|].
  inversion Hs as [|b m Hs' Hall]; subst.
  destruct Hx as [<-|Hx].
  - rewrite Forall_forall in Hall. apply Hall, in_or_app. now right.
  - now apply IH.
Qed.

Lemma crore_share_monotone (x y : Qc) :
  (x <= y)%Qc -> (x / Num.crore <= y / Num.crore)%Qc.
Proof.
  intros H. unfold Qcdiv. apply Qcmult_le_compat_r; [exact H | now vm_compute].
Qed.


(** X9: the ranking never puts a company below one of smaller total
    because of the rounding: when a company of no larger total is listed
    above another, both have the same crore figure. *)
Theorem ranking_respects_totals :
  forall (to_numeric : string -> option Qc) (argsort : list Qc -> list nat)
         (cols : list string) (val : string) (final_df : list (list cell))
         (l1 l2 l3 : list Signal) (a b : Signal),
    argsort_spec argsort ->
    sort_values argsort (grouped to_numeric cols val final_df) =
      l1 ++ b :: l2 ++ a :: l3 ->
    (Value b <= Value a)%Qc ->
    Value_Cr a = Value_Cr b.
Proof.
  intros to_numeric argsort cols val final_df l1 l2 l3 a b Hspec Hsplit Hle.
  set (g := grouped to_numeric cols val final_df) in *.
  assert (Hin : forall x, In x (l1 ++ b :: l2 ++ a :: l3) -> In x g).
  { intros x Hx. rewrite <- Hsplit in Hx. unfold sort_values in Hx.
    eapply iloc_In; eauto. }
  assert (Ha : In a g).
  { apply Hin, in_or_app. right. right. apply in_or_app. right. now left. }
  assert (Hb : In b g).
  { apply Hin, in_or_app. right. now left. }
  pose proof (sort_values_descending argsort Hspec g) as Hd.
  rewrite Hsplit in Hd. unfold descending in Hd.
  apply Qcle_antisym.
  - change (l1 ++ b :: l2 ++ a :: l3)
      with (l1 ++ (b :: l2) ++ a :: l3) in Hd.
    rewrite app_assoc in Hd.
    apply (StronglySorted_app_cross _ _ _ Hd b a).
    + apply in_or_app. right. now left.
    + now left.
  - unfold g in Ha, Hb.
    rewrite (grouped_In _ _ _ _ _ Ha), (grouped_In _ _ _ _ _ Hb).
    now apply round2_monotone, crore_share_monotone.
Qed.

(** X10: the scan takes the best of the ranking: no company left out of
    the first [num_stocks] rows has a larger crore figure than a company
    among them. *)
Theorem scanned_rows_outrank_the_rest :
  forall (argsort : list Qc -> list nat) (g : list Signal) (num_stocks : nat)
         (r r' : Signal),
    argsort_spec argsort ->
    In r (firstn num_stocks (sort_values argsort g)) ->
    In r' (skipn num_stocks (sort_values argsort g)) ->
    (Value_Cr r' <= Value_Cr r)%Qc.
Proof.
  intros argsort g num_stocks r r' Hspec Hr Hr'.
  pose proof (sort_values_descending argsort Hspec g) as Hd.
  rewrite <- (firstn_skipn num_stocks (sort_values argsort g)) in Hd.
  exact (StronglySorted_app_cross _ _ _ Hd r r' Hr Hr').
Qed.

Lemma qualifying_rows_In (df : DataFrame) (r : list cell) :
  let cols := normalize_columns (columns df) in
  let b := column_mapping cols in
  In r (qualifying_rows df) ->
  In r (records df) /\
  exists person type mode,
    person_col b = Some person /\ type_col b = Some type /\
    mode_col b = Some mode /\
    mentions "Promoter" (field cols person r) /\
    (mentions "Buy" (field cols type r) \/
     mentions "Acqui" (field cols type r)) /\
    begins_with "Market P" (field cols mode r).
Proof.
  intros cols b. unfold qualifying_rows. fold cols. fold b.
  destruct (person_col b) as [p|]; [|contradiction].
  destruct (type_col b) as [t|]; [|contradiction].
  destruct (val_col b) as [v|]; [|contradiction].
  destruct (mode_col b) as [m|]; [|contradiction].
  intros Hin. apply classify_In in Hin.
  split; [tauto|]. exists p, t, m. tauto.
Qed.

(** X11: the ranking lists exactly the companies that have a row passing
    the three filters, each once: every symbol of the ranking is carried
    by such a row of the upload, and every symbol carried by such a row
    is in the ranking. *)
Theorem ranking_sound_and_complete :
  forall (to_numeric : string -> option Qc) (argsort : list Qc -> list nat)
         (df : DataFrame) (ranking : list Signal),
    argsort_spec argsort ->
    load_and_rank to_numeric argsort df = inr ranking ->
    let cols := normalize_columns (columns df) in
    let b := column_mapping cols in
    NoDup (map SYMBOL ranking) /\
    (forall k, In k (map SYMBOL ranking) <->
               exists r, In r (qualifying_rows df) /\
                         field cols "SYMBOL" r = Some k) /\
    (forall r, In r (qualifying_rows df) ->
       In r (records df) /\
       exists person type mode,
         person_col b = Some person /\ type_col b = Some type /\
         mode_col b = Some mode /\
         mentions "Promoter" (field cols person r) /\
         (mentions "Buy" (field cols type r) \/
          mentions "Acqui" (field cols type r)) /\
         begins_with "Market P" (field cols mode r)).
Proof.
  intros to_numeric argsort df ranking Hspec Hrun cols b.
  assert (Hok : all_bound (column_mapping cols) = true /\ In "SYMBOL" cols).
  { destruct (all_bound (column_mapping cols)) eqn:Hb.
    - split; [reflexivity|].
      destruct (in_dec string_dec "SYMBOL" cols) as [Hs|Hs]; [exact Hs|].
      exfalso. unfold load_and_rank in Hrun. fold cols in Hrun.
      rewrite Hb in Hrun. cbn [negb] in Hrun.
      destruct (all_bound_Some cols Hb) as [p [t [v [m [Ep [Et [Ev Em]]]]]]].
      rewrite Ep, Et, Ev, Em in Hrun. apply position_In in Hs.
      rewrite Hs in Hrun. discriminate.
    - apply (schema_mismatch_iff to_numeric argsort) in Hb.
      rewrite Hb in Hrun. discriminate. }
  destruct Hok as [Hb Hs].
  destruct (load_and_rank_ranked to_numeric argsort df Hb Hs)
    as [val [_ Hrun']].
  rewrite Hrun' in Hrun. injection Hrun as <-.
  set (final_df := qualifying_rows df).
  set (g := grouped to_numeric (normalize_columns (columns df)) val final_df).
  pose proof (sort_values_Permutation argsort Hspec g) as Hperm.
  destruct (groupby_sum_spec
              (symbol_values to_numeric cols val final_df)) as [H1 [H2 _]].
  assert (Hsym : map SYMBOL g =
                 map fst (groupby_sum
                            (symbol_values to_numeric cols val final_df))).
  { unfold g, grouped. apply to_signals_symbols. }
  split; [|split].
  - eapply Permutation_NoDup.
    + apply Permutation_map. symmetry. exact Hperm.
    + rewrite Hsym. now apply keys_ascending_NoDup.
  - intros k. split.
    + intros Hk.
      apply (Permutation_in _ (Permutation_map SYMBOL Hperm)) in Hk.
      rewrite Hsym in Hk. apply H2 in Hk.
      unfold symbol_values in Hk. rewrite map_map in Hk. simpl in Hk.
      apply in_map_iff in Hk. destruct Hk as [r [E Hr]]. eauto.
    + intros [r [Hr E]].
      apply (Permutation_in _
               (Permutation_sym (Permutation_map SYMBOL Hperm))).
      rewrite Hsym. apply H2. unfold symbol_values. rewrite map_map. simpl.
      apply in_map_iff. exists r. auto.
  - intros r. apply qualifying_rows_In.
Qed.

Lemma ranking_respects_totals_witness :
  argsort_spec argsort_keep /\
  sort_values argsort_keep
    (grouped to_numeric_digits nse_columns
       "VALUE OF SECURITY (ACQUIRED/DISPLOSED)" close_totals) =
    [] ++ signal 0 "AAA" 10000000 :: [] ++ signal 1 "BBB" 10010000 :: [] /\
  (Value (signal 0 "AAA" 10000000) <= Value (signal 1 "BBB" 10010000))%Qc /\
  Value_Cr (signal 1 "BBB" 10010000) = Value_Cr (signal 0 "AAA" 10000000).
Proof.
  assert (Hsplit :
            sort_values argsort_keep
              (grouped to_numeric_digits nse_columns
                 "VALUE OF SECURITY (ACQUIRED/DISPLOSED)" close_totals) =
            [] ++ signal 0 "AAA" 10000000 :: [] ++
            signal 1 "BBB" 10010000 :: []) by reflexivity.
  assert (Hle : (Value (signal 0 "AAA" 10000000) <=
                 Value (signal 1 "BBB" 10010000))%Qc).
  { apply of_Z_le. lia. }
  split; [exact argsort_keep_spec|]. split; [exact Hsplit|].
  split; [exact Hle|].
  exact (ranking_respects_totals to_numeric_digits argsort_keep nse_columns
           "VALUE OF SECURITY (ACQUIRED/DISPLOSED)" close_totals [] [] []
           (signal 1 "BBB" 10010000) (signal 0 "AAA" 10000000)
           argsort_keep_spec Hsplit Hle).
Defined.

Lemma scanned_rows_outrank_the_rest_witness :
  argsort_spec argsort_keep /\
  In (signal 0 "BAD" 50000000)
     (firstn 2 (sort_values argsort_keep sample_ranking)) /\
  In (signal 1 "LAST" 10000000)
     (skipn 2 (sort_values argsort_keep sample_ranking)) /\
  (Value_Cr (signal 1 "LAST" 10000000) <=
   Value_Cr (signal 0 "BAD" 50000000))%Qc.
Proof.
  assert (H1 : In (signal 0 "BAD" 50000000)
                  (firstn 2 (sort_values argsort_keep sample_ranking))).
  { change (sort_values argsort_keep sample_ranking) with sample_ranking.
    right. left. reflexivity. }
  assert (H2 : In (signal 1 "LAST" 10000000)
                  (skipn 2 (sort_values argsort_keep sample_ranking))).
  { change (sort_values argsort_keep sample_ranking) with sample_ranking.
    right. left. reflexivity. }
  split; [exact argsort_keep_spec|]. split; [exact H1|]. split; [exact H2|].
  exact (scanned_rows_outrank_the_rest argsort_keep sample_ranking 2 _ _
           argsort_keep_spec H1 H2).
Defined.

Lemma ranking_sound_and_complete_witness :
  argsort_spec argsort_keep /\
  exists ranking,
    load_and_rank to_numeric_digits argsort_keep scenario3 = inr ranking /\
    NoDup (map SYMBOL ranking) /\
    (In "XYZ" (map SYMBOL ranking) <->
     exists r, In r (qualifying_rows scenario3) /\
               field (normalize_columns (columns scenario3)) "SYMBOL" r =
               Some "XYZ").
Proof.
  split; [exact argsort_keep_spec|].
  eexists. split; [reflexivity|].
  pose proof (ranking_sound_and_complete to_numeric_digits argsort_keep
                scenario3 _ argsort_keep_spec eq_refl) as H.
  cbv zeta in H. destruct H as [Hnd [Hsym _]].
  split; [exact Hnd | exact (Hsym "XYZ")].
Defined.




(* ================================================================== *)
(** * More on the scan: the progress bar                               *)
(* ================================================================== *)

Lemma of_nat_positive (n : nat) : (0 < n)%nat -> (Q2Qc 0 < Num.of_nat n)%Qc.
Proof. intros H. apply (of_Z_lt 0). lia. Qed.

Lemma fraction_times (a n : nat) :
  (0 < n)%nat ->
  (Num.of_nat a / Num.of_nat n * Num.of_nat n)%Qc = Num.of_nat a.
Proof.
  intros Hn. rewrite Qcmult_comm. apply Qcmult_div_r.
  intros E. pose proof (of_nat_positive n Hn) as Hpos.
  rewrite E in Hpos. exact (Qclt_not_eq _ _ Hpos eq_refl).
Qed.

(** Fractions of the same positive denominator compare as their
    numerators. *)
Lemma fraction_le (a b n : nat) :
  (0 < n)%nat ->
  ((Num.of_nat a / Num.of_nat n <= Num.of_nat b / Num.of_nat n)%Qc <->
   (a <= b)%nat).
Proof.
  intros Hn. pose proof (of_nat_positive n Hn) as Hpos. split.
  - intros H.
    apply (Qcmult_le_compat_r _ _ (Num.of_nat n)) in H;
      [|now apply Qclt_le_weak].
    rewrite !fraction_times in H by exact Hn.
    apply of_Z_le_inv in H. lia.
  - intros H. apply (Qcmult_lt_0_le_reg_r _ _ (Num.of_nat n) Hpos).
    rewrite !fraction_times by exact Hn. apply of_Z_le. lia.
Qed.

Lemma fraction_one (n : nat) :
  (0 < n)%nat -> (Num.of_nat n / Num.of_nat n)%Qc = Q2Qc 1.
Proof.
  intros Hn. unfold Qcdiv. apply Qcmult_inv_r.
  intros E. pose proof (of_nat_positive n Hn) as Hpos.
  rewrite E in Hpos. exact (Qclt_not_eq _ _ Hpos eq_refl).
Qed.

Lemma progress_fraction_over (a n : nat) :
  (0 < n < a)%nat ->
  progress_ok (Num.of_nat a / Num.of_nat n)%Qc = false.
Proof.
  intros [Hn Ha]. unfold progress_ok.
  destruct (Num.leb (Num.of_nat a / Num.of_nat n) (Q2Qc 1)) eqn:E;
    [|apply andb_false_r].
  exfalso. apply leb_le in E. rewrite <- (fraction_one n Hn) in E.
  apply fraction_le in E; [lia | exact Hn].
Qed.

Lemma scanning_loop_raises (ticker_info : string -> option Info)
  (num_stocks : nat) (symbols : list string) (i : nat) (st : ScanLists) :
  (0 < num_stocks)%nat ->
  (scanning_loop ticker_info num_stocks i symbols st = None <->
   symbols <> [] /\ (num_stocks < i + List.length symbols)%nat).
Proof.
  intros Hn. revert i st.
  induction symbols as [|s symbols IH]; intros i st.
  - simpl. split; [discriminate | intros [H _]; congruence].
  - cbn [scanning_loop]. unfold scan_one.
    destruct (Nat.le_gt_cases (i + 1) num_stocks) as [Hle|Hgt].
    + rewrite progress_fraction_ok by lia. rewrite IH. simpl.
      split.
      * intros [_ H]. split; [discriminate | lia].
      * intros [_ H]. split; [|lia].
        destruct symbols; [simpl in H; lia | discriminate].
    + rewrite progress_fraction_over by lia. simpl.
      split; [|reflexivity]. intros _. split; [discriminate | lia].
Qed.

(** X13: with [num_stocks] at least one, the scanning loop runs to its end
    exactly when it is given at most [num_stocks] symbols; given more,
    the progress call outside the guard raises and the scan is lost.
    The script hands it the symbols of [head(num_stocks)], which are
    never more. *)
Theorem scanning_loop_completes_iff :
  forall (ticker_info : string -> option Info) (num_stocks : nat)
         (symbols : list string),
    (0 < num_stocks)%nat ->
    ((exists st,
         scanning_loop ticker_info num_stocks 0 symbols no_lists = Some st) <->
     (List.length symbols <= num_stocks)%nat) /\
    (forall grouped_df : list Signal,
        (List.length (map SYMBOL (firstn num_stocks grouped_df))
         <= num_stocks)%nat).
Proof.
  intros ticker_info num_stocks symbols Hn. split.
  - pose proof (scanning_loop_raises ticker_info num_stocks symbols 0
                  no_lists Hn) as H.
    destruct (scanning_loop ticker_info num_stocks 0 symbols no_lists)
      as [st|].
    + split; [|eauto]. intros _.
      destruct (Nat.le_gt_cases (List.length symbols) num_stocks) as [Hle|Hgt];
        [exact Hle|].
      assert (Hnone : @Some ScanLists st = None).
      { apply H. split; [|simpl; lia].
        intros E. subst symbols. simpl in Hgt. lia. }
      discriminate Hnone.
    + split; [intros [st Hst]; discriminate|].
      intros Hle. destruct (proj1 H eq_refl) as [_ Hgt]. simpl in Hgt. lia.
  - intros grouped_df. rewrite length_map, length_firstn. lia.
Qed.

Lemma scanning_loop_completes_iff_witness :
  (0 < 2)%nat /\
  ((exists st,
       scanning_loop sample_quotes 2 0 ["GOOD"; "BAD"; "LAST"] no_lists
       = Some st) <->
   (List.length ["GOOD"; "BAD"; "LAST"] <= 2)%nat) /\
  scanning_loop sample_quotes 2 0 ["GOOD"; "BAD"; "LAST"] no_lists = None.
Proof.
  assert (Hn : (0 < 2)%nat) by lia.
  split; [exact Hn|]. split; [|reflexivity].
  exact (proj1 (scanning_loop_completes_iff sample_quotes 2
                  ["GOOD"; "BAD"; "LAST"] Hn)).
Defined.

(** X14: the progress bar grows with the loop index and reads 100 % at
    index [num_stocks - 1] only, so it stops short of 100 % when the
    ranking has fewer than [num_stocks] rows. *)
Theorem progress_bar_reading :
  forall (num_stocks i j : nat),
    (0 < num_stocks)%nat ->
    ((progress_fraction num_stocks i <= progress_fraction num_stocks j)%Qc <->
     (i <= j)%nat) /\
    (progress_fraction num_stocks i = Q2Qc 1 <-> (i + 1 = num_stocks)%nat) /\
    ((i + 1 < num_stocks)%nat ->
     (progress_fraction num_stocks i < Q2Qc 1)%Qc).
Proof.
  intros num_stocks i j Hn. unfold progress_fraction.
  assert (Hone : (Num.of_nat (i + 1) / Num.of_nat num_stocks)%Qc = Q2Qc 1 <->
                 (i + 1 = num_stocks)%nat).
  { rewrite <- (fraction_one num_stocks Hn). split.
    - intros E.
      assert (H1 : (i + 1 <= num_stocks)%nat).
      { apply (fraction_le _ _ num_stocks Hn). rewrite E. apply Qcle_refl. }
      assert (H2 : (num_stocks <= i + 1)%nat).
      { apply (fraction_le _ _ num_stocks Hn). rewrite E. apply Qcle_refl. }
      lia.
    - intros ->. reflexivity. }
  split; [|split].
  - rewrite fraction_le by exact Hn. lia.
  - exact Hone.
  - intros Hlt. apply Qcnot_le_lt. intros Hge.
    rewrite <- (fraction_one num_stocks Hn) in Hge.
    apply fraction_le in Hge; [lia | exact Hn].
Qed.

Lemma progress_bar_reading_witness :
  (0 < 10)%nat /\
  (progress_fraction 10 9 = Q2Qc 1 <-> (9 + 1 = 10)%nat) /\
  ((3 + 1 < 10)%nat -> (progress_fraction 10 3 < Q2Qc 1)%Qc).
Proof.
  assert (Hn : (0 < 10)%nat) by lia.
  split; [exact Hn|]. split.
  - exact (proj1 (proj2 (progress_bar_reading 10 9 0 Hn))).
  - exact (proj2 (proj2 (progress_bar_reading 10 3 0 Hn))).
Defined.

(* ================================================================== *)
(** * More on the slider filters                                       *)
(* ================================================================== *)

Lemma enrich_labels (ticker_info : string -> option Info)
  (grouped_df : list Signal) (num_stocks : nat) :
  NoDup (map idx grouped_df) ->
  NoDup (map label
           (map (pick_of ticker_info) (firstn num_stocks grouped_df))).
Proof.
  intros H. rewrite map_map. unfold label. simpl.
  rewrite <- firstn_map. now apply NoDup_firstn.
Qed.

(** X15: a company whose lookup raised, or whose quote has no trailing
    P/E (key absent or [None]), is never a golden stock: whatever the
    sliders, the scan lists it among the rejected. *)
Theorem unavailable_pe_always_rejected :
  forall (ticker_info : string -> option Info) (grouped_df : list Signal)
         (num_stocks : nat) (th : Thresholds) (r : Signal),
    NoDup (map idx grouped_df) ->
    In r (firstn num_stocks grouped_df) ->
    (ticker_info (SYMBOL r ++ ".NS")%string = None \/
     exists info,
       ticker_info (SYMBOL r ++ ".NS")%string = Some info /\
       (trailingPE info = None \/ trailingPE info = Some PyNone)) ->
    exists report,
      deep_scan ticker_info grouped_df num_stocks th = Some report /\
      In (pick_of ticker_info r) (rejected report) /\
      ~ In (pick_of ticker_info r) (gold_stocks report).
Proof.
  intros ticker_info grouped_df num_stocks th r Hnd Hr Hfail.
  unfold deep_scan. rewrite enrich_map. simpl. eexists. split; [reflexivity|].
  assert (Hpe : PE (pick_of ticker_info r) = Q2Qc 0).
  { unfold pick_of, quote_pe; simpl.
    destruct Hfail as [->|[info [-> [E|E]]]]; [reflexivity| |];
      rewrite E; reflexivity. }
  assert (Hno : ~ accepted_by_spec th (pick_of ticker_info r)).
  { intros [Hpos _]. rewrite Hpe in Hpos.
    exact (Qclt_not_eq _ _ Hpos eq_refl). }
  split.
  - apply rejected_In; [now apply enrich_labels|].
    split; [now apply in_map | exact Hno].
  - intros Hg. apply gold_In in Hg. tauto.
Qed.

Lemma unavailable_pe_always_rejected_witness :
  NoDup (map idx short_ranking) /\
  In (signal 0 "BAD" 50000000) (firstn 5 short_ranking) /\
  sample_quotes "BAD.NS" = None /\
  exists report,
    deep_scan sample_quotes short_ranking 5 default_sliders = Some report /\
    In (pick_of sample_quotes (signal 0 "BAD" 50000000)) (rejected report).
Proof.
  assert (Hnd : NoDup (map idx short_ranking)).
  { constructor; [|constructor; [|constructor]].
    - intros [H|H]; [discriminate H | exact H].
    - intros H. exact H. }
  assert (Hin : In (signal 0 "BAD" 50000000) (firstn 5 short_ranking))
    by (left; reflexivity).
  assert (Hq : sample_quotes "BAD.NS" = None) by reflexivity.
  split; [exact Hnd|]. split; [exact Hin|]. split; [exact Hq|].
  destruct (unavailable_pe_always_rejected sample_quotes short_ranking 5
              default_sliders (signal 0 "BAD" 50000000) Hnd Hin
              (or_introl Hq)) as [report [Hrun [Hrej _]]].
  exists report. split; assumption.
Defined.

Lemma looser_accepts (th th' : Thresholds) (p : Pick) :
  looser th th' -> accepted_by_spec th p -> accepted_by_spec th' p.
Proof.
  intros [Hpe [Hroe Hdebt]] [H1 [H2 [H3 H4]]]. repeat split.
  - exact H1.
  - eapply Qclt_le_trans; eauto.
  - eapply Qcle_lt_trans; eauto.
  - eapply Qclt_le_trans; [exact H4|].
    apply Qcmult_le_compat_r; [exact Hdebt | now vm_compute].
Qed.

(** X16: loosening the sliders (a higher P/E ceiling, a lower ROE floor, a
    higher debt ceiling) never loses a golden stock; on a table with
    distinct labels it never adds a rejected one. *)
Theorem looser_sliders_accept_more :
  forall (th th' : Thresholds) (picks : list Pick),
    looser th th' ->
    incl (gold_stocks (apply_filters th picks))
         (gold_stocks (apply_filters th' picks)) /\
    (NoDup (map label picks) ->
     incl (rejected (apply_filters th' picks))
          (rejected (apply_filters th picks))).
Proof.
  intros th th' picks Hl. split.
  - intros p Hp. apply gold_In in Hp. apply gold_In.
    split; [tauto|]. apply (looser_accepts th th'); tauto.
  - intros Hnd p Hp. apply rejected_In in Hp; [|exact Hnd].
    apply rejected_In; [exact Hnd|]. split; [tauto|].
    intros Hacc. apply (proj2 Hp). now apply (looser_accepts th th').
Qed.

Lemma looser_sliders_accept_more_witness :
  looser (sliders 60 10 (Q2Qc (1 # 2))) default_sliders /\
  incl (gold_stocks (apply_filters (sliders 60 10 (Q2Qc (1 # 2)))
                       [scenario4; unavailable_pick]))
       (gold_stocks (apply_filters default_sliders
                       [scenario4; unavailable_pick])).
Proof.
  assert (Hl : looser (sliders 60 10 (Q2Qc (1 # 2))) default_sliders).
  { repeat split; now vm_compute. }
  split; [exact Hl|].
  exact (proj1 (looser_sliders_accept_more _ _ [scenario4; unavailable_pick]
                  Hl)).
Defined.

Lemma filter_split_Permutation {A : Type} (f : A -> bool) (l : list A) :
  Permutation (filter f l ++ filter (fun x => negb (f x)) l) l.
Proof.
  induction l as [|x l IH]; simpl; [constructor|].
  destruct (f x); simpl.
  - now constructor.
  - symmetry. apply Permutation_cons_app. now symmetry.
Qed.

Lemma rejected_filter (th : Thresholds) (picks : list Pick) :
  NoDup (map label picks) ->
  rejected (apply_filters th picks) =
  filter (fun p => negb (passes th p)) picks.
Proof.
  intros Hnd. unfold apply_filters; simpl rejected.
  apply filter_ext_in. intros p Hp. f_equal.
  destruct (passes th p) eqn:E.
  - apply isin_In, in_map, filter_In. auto.
  - apply not_true_iff_false. intros H. apply isin_In in H.
    apply in_map_iff in H. destruct H as [q [El Hq]].
    apply filter_In in Hq. destruct Hq as [Hq Hpass].
    assert (q = p) by (eapply NoDup_map_injective; eauto).
    subst q. congruence.
Qed.

(** X17: on a table with distinct labels the two views split the scanned
    rows: golden and rejected stocks together are the rows of the table,
    each in one view only, both views in rank order, and the two counts
    add up to the number of scanned rows. *)
Theorem gate_splits_the_table :
  forall (th : Thresholds) (picks : list Pick),
    NoDup (map label picks) ->
    let report := apply_filters th picks in
    Permutation (gold_stocks report ++ rejected report) picks /\
    (List.length (gold_stocks report) + List.length (rejected report) =
     List.length picks)%nat /\
    Subsequence (gold_stocks report) picks /\
    Subsequence (rejected report) picks /\
    (forall p, In p (gold_stocks report) -> ~ In p (rejected report)).
Proof.
  intros th picks Hnd report. unfold report.
  rewrite (rejected_filter th picks Hnd).
  unfold apply_filters; simpl gold_stocks.
  split; [apply filter_split_Permutation|].
  split; [apply filter_length|].
  split; [apply filter_Subsequence|].
  split; [apply filter_Subsequence|].
  intros p Hg Hr. apply filter_In in Hg. apply filter_In in Hr.
  destruct Hg as [_ Hg]. destruct Hr as [_ Hr]. rewrite Hg in Hr.
  discriminate Hr.
Qed.

Lemma gate_splits_the_table_witness :
  NoDup (map label [scenario4; unavailable_pick]) /\
  (List.length (gold_stocks (apply_filters default_sliders
                               [scenario4; unavailable_pick])) +
   List.length (rejected (apply_filters default_sliders
                            [scenario4; unavailable_pick])) = 2)%nat.
Proof.
  assert (Hnd : NoDup (map label [scenario4; unavailable_pick])).
  { constructor; [|constructor; [|constructor]].
    - intros [H|H]; [discriminate H | exact H].
    - intros H. exact H. }
  split; [exact Hnd|].
  exact (proj1 (proj2 (gate_splits_the_table default_sliders
                         [scenario4; unavailable_pick] Hnd))).
Defined.

Lemma five_hundred : (Num.of_Z 5 * Num.of_Z 100)%Qc = Num.of_Z 500.
Proof. apply Qc_is_canon. reflexivity. Qed.

(** X18: with the sliders anywhere in their ranges, a golden stock has a
    P/E above 0 and below 100, a positive ROE % and a debt/equity below
    500. *)
Theorem golden_within_slider_range :
  forall (th : Thresholds) (picks : list Pick) (p : Pick),
    slider_range th ->
    In p (gold_stocks (apply_filters th picks)) ->
    (Q2Qc 0 < PE p)%Qc /\ (PE p < Num.of_Z 100)%Qc /\
    (Q2Qc 0 < ROE_pct p)%Qc /\ (Debt_Eq p < Num.of_Z 500)%Qc.
Proof.
  intros th picks p [_ [Hpe [Hroe [_ [_ Hdebt]]]]] Hg.
  apply gold_In in Hg. destruct Hg as [_ [H1 [H2 [H3 H4]]]].
  repeat split.
  - exact H1.
  - eapply Qclt_le_trans; eauto.
  - eapply Qcle_lt_trans; eauto.
  - rewrite <- five_hundred. eapply Qclt_le_trans; [exact H4|].
    apply Qcmult_le_compat_r; [exact Hdebt | now vm_compute].
Qed.

Lemma golden_within_slider_range_witness :
  slider_range default_sliders /\
  In scenario4 (gold_stocks (apply_filters default_sliders [scenario4])) /\
  (PE scenario4 < Num.of_Z 100)%Qc.
Proof.
  assert (Hr : slider_range default_sliders).
  { repeat split; now vm_compute. }
  assert (Hg : In scenario4
                  (gold_stocks (apply_filters default_sliders [scenario4])))
    by (left; reflexivity).
  split; [exact Hr|]. split; [exact Hg|].
  exact (proj1 (proj2 (golden_within_slider_range default_sliders
                         [scenario4] scenario4 Hr Hg))).
Defined.

(* ================================================================== *)
(** * The whole run                                                    *)
(* ================================================================== *)


Lemma debt_ceiling_positive (d : Qc) :
  (Q2Qc 0 < d * Num.of_Z 100)%Qc <-> (Q2Qc 0 < d)%Qc.
Proof.
  assert (H100 : (Q2Qc 0 < Num.of_Z 100)%Qc) by now vm_compute.
  split.
  - intros H. apply Qcnot_le_lt. intros Hle.
    apply (Qcmult_le_compat_r _ _ (Num.of_Z 100)) in Hle;
      [|now apply Qclt_le_weak].
    rewrite Qcmult_0_l in Hle. exact (Qcle_not_lt _ _ Hle H).
  - intros H. apply (Qcmult_lt_compat_r _ _ _ H100) in H.
    now rewrite Qcmult_0_l in H.
Qed.

(** X20: how a quote with a missing figure meets the sliders. A missing
    return on equity counts as 0 %, so the row fails every ROE floor of
    zero or more; a missing debt/equity counts as no debt, so the row
    passes the leverage test under every debt ceiling above zero. *)
Theorem missing_figures_meet_the_filters :
  forall (ticker_info : string -> option Info) (r : Signal) (info : Info)
         (th : Thresholds),
    ticker_info (SYMBOL r ++ ".NS")%string = Some info ->
    let p := pick_of ticker_info r in
    ((returnOnEquity info = None \/ returnOnEquity info = Some PyNone) ->
     (Q2Qc 0 <= roe_limit th)%Qc ->
     passes th p = false) /\
    ((debtToEquity info = None \/ debtToEquity info = Some PyNone) ->
     (passes th p = true <->
      (PE p > Q2Qc 0)%Qc /\ (PE p < pe_limit th)%Qc /\
      (ROE_pct p > roe_limit th)%Qc /\ (Q2Qc 0 < debt_limit th)%Qc)).
Proof.
  intros ticker_info r info th Hinfo p. split.
  - intros Hroe Hfloor.
    assert (E : ROE_pct p = Q2Qc 0).
    { unfold p, pick_of, quote_roe; simpl. rewrite Hinfo.
      destruct Hroe as [->| ->]; apply to_percent_zero. }
    apply not_true_iff_false. intros Hpass.
    apply passes_accepted in Hpass. destruct Hpass as [_ [_ [H _]]].
    rewrite E in H. exact (Qcle_not_lt _ _ Hfloor H).
  - intros Hdebt.
    assert (E : Debt_Eq p = Q2Qc 0).
    { unfold p, pick_of, quote_debt; simpl. rewrite Hinfo.
      destruct Hdebt as [->| ->]; reflexivity. }
    rewrite passes_accepted. unfold accepted_by_spec.
    rewrite E, debt_ceiling_positive. tauto.
Qed.

Lemma missing_figures_meet_the_filters_witness :
  no_debt_quotes (SYMBOL (signal 0 "ABC" 50000000) ++ ".NS")%string =
    Some no_debt_figure /\
  debtToEquity no_debt_figure = None /\
  passes default_sliders (pick_of no_debt_quotes (signal 0 "ABC" 50000000))
    = true.
Proof.
  assert (Hq : no_debt_quotes (SYMBOL (signal 0 "ABC" 50000000) ++ ".NS")%string
               = Some no_debt_figure) by reflexivity.
  split; [exact Hq|]. split; [reflexivity|].
  apply (proj2 (missing_figures_meet_the_filters no_debt_quotes
                  (signal 0 "ABC" 50000000) no_debt_figure default_sliders
                  Hq) (or_introl eq_refl)).
  repeat split; now vm_compute.
Defined.
